(** * A multi-level cache (cache.js): shallow embedding and verification

    The program keeps an array of [CacheLevel] objects.  Each level owns an
    insertion-ordered JavaScript [Map] for its entries, a second [Map] of
    access counters (LFU), a non-reentrant [Mutex] and a reference to the
    next lower level.  [MultiLevelCache] owns the array of levels.

    Objects are shared by reference (a level is reachable both from the
    array and from its upper neighbour's [lowerCache] field), so the
    embedding keeps an explicit heap of levels addressed by allocation
    index; the array and the [lowerCache] fields hold addresses. *)

From Stdlib Require Import ZArith Lia Sorted Ascii.
From stdpp Require Import base tactics option list strings pretty relations.

Local Open Scope Z_scope.

(** ** JavaScript values *)

(** The values that flow through the cache: keys and payloads typed at the
    command line are strings; [undefined] and [null] arise inside the code
    itself; numbers are what a programmatic caller would pass. *)
Inductive jsval : Type :=
  | JUndefined
  | JNull
  | JNumber (n : Z)
  | JString (s : string).

#[global] Instance jsval_eq_dec : EqDecision jsval.
Proof. solve_decision. Defined.

(** [if (v)]: JavaScript truthiness. *)
Definition truthy (v : jsval) : bool :=
  match v with
  | JUndefined | JNull => false
  | JNumber n => negb (n =? 0)
  | JString s => negb (String.eqb s EmptyString)
  end.

(** String conversion as performed by a template literal. *)
Definition toString (v : jsval) : string :=
  match v with
  | JUndefined => "undefined"
  | JNull => "null"
  | JNumber n => pretty n
  | JString s => s
  end.

(** ** The built-in [Map]: insertion-ordered, keys unique *)

Module JsMap.
Section ops.
Context {V : Type}.

Fixpoint has (k : jsval) (m : list (jsval * V)) : bool :=
  match m with
  | [] => false
  | (k', _) :: m' => if decide (k = k') then true else has k m'
  end.

Fixpoint get (k : jsval) (m : list (jsval * V)) : option V :=
  match m with
  | [] => None
  | (k', v') :: m' => if decide (k = k') then Some v' else get k m'
  end.

(** [set] on a present key replaces the value and keeps its position;
    on a new key it appends at the end. *)
Fixpoint set (k : jsval) (v : V) (m : list (jsval * V)) : list (jsval * V) :=
  match m with
  | [] => [(k, v)]
  | (k', v') :: m' =>
      if decide (k = k') then (k', v) :: m' else (k', v') :: set k v m'
  end.

Fixpoint delete (k : jsval) (m : list (jsval * V)) : list (jsval * V) :=
  match m with
  | [] => []
  | (k', v') :: m' =>
      if decide (k = k') then m' else (k', v') :: delete k m'
  end.

Definition size (m : list (jsval * V)) : Z := Z.of_nat (length m).

Definition keys (m : list (jsval * V)) : list jsval := m.*1.

(** [m.keys().next().value]: the first key, [undefined] on an empty map. *)
Definition first_key (m : list (jsval * V)) : jsval :=
  match m with
  | [] => JUndefined
  | (k, _) :: _ => k
  end.
End ops.
End JsMap.

(** A [Map.get] whose result is used as a JavaScript value. *)
Definition get_or_undefined (k : jsval) (m : list (jsval * jsval)) : jsval :=
  default JUndefined (JsMap.get k m).

(** [this.accessCount.get(key) || 0] *)
Definition count_or_zero (k : jsval) (m : list (jsval * Z)) : Z :=
  default 0 (JsMap.get k m).

(** ** Objects and program state *)

Record CacheLevel : Type := mkCacheLevel {
  size : Z;
  evictionPolicy : string;
  cache : list (jsval * jsval);
  accessCount : list (jsval * Z);
  mutex : bool;                 (* [true]: the lock is held *)
  lowerCache : option nat       (* [None]: null *)
}.

(** Ghost record of lock traffic, used to state the locking discipline. *)
Inductive lock_event : Type :=
  | Acquire (a : nat)
  | Release (a : nat).

#[global] Instance lock_event_eq_dec : EqDecision lock_event.
Proof. solve_decision. Defined.

Record State : Type := mkState {
  heap : list CacheLevel;       (* every level ever constructed *)
  cacheLevels : list nat;       (* [MultiLevelCache.cacheLevels] *)
  trace : list lock_event
}.

(** What a thrown value is. *)
Inductive exn : Type :=
  | Error (msg : string)        (* [throw new Error(msg)] *)
  | TypeError.                  (* member access on [undefined] *)

(** Result of running an (awaited) call to completion.  [Blocks]: the call
    waits for a mutex that nothing will ever release.  [Stuck] is not a
    behaviour of the program: it marks exhausted fuel or a dangling
    address, and is shown not to occur. *)
Inductive outcome (A : Type) : Type :=
  | Returns (a : A) (s : State)
  | Throws (e : exn) (s : State)
  | Blocks (s : State)
  | Stuck.
Arguments Returns {A} a s.
Arguments Throws {A} e s.
Arguments Blocks {A} s.
Arguments Stuck {A}.

Definition M (A : Type) : Type := State → outcome A.

Definition ret {A} (a : A) : M A := fun s => Returns a s.

Definition bind {A B} (m : M A) (f : A → M B) : M B :=
  fun s =>
    match m s with
    | Returns a s' => f a s'
    | Throws e s' => Throws e s'
    | Blocks s' => Blocks s'
    | Stuck => Stuck
    end.

Notation "'let!' x ':=' m 'in' f" := (bind m (fun x => f))
  (at level 10, x name, m at level 100, f at level 200).
Notation "m ;;; f" := (bind m (fun _ => f))
  (at level 100, f at level 200, right associativity).

(** [try { body } finally { fin }] for a [fin] that cannot fail. *)
Definition try_finally {A} (body : M A) (fin : State → State) : M A :=
  fun s =>
    match body s with
    | Returns a s' => Returns a (fin s')
    | Throws e s' => Throws e (fin s')
    | Blocks s' => Blocks s'
    | Stuck => Stuck
    end.

Definition set_heap (h : list CacheLevel) (s : State) : State :=
  mkState h (cacheLevels s) (trace s).

Definition update_level (a : nat) (f : CacheLevel → CacheLevel) (s : State) : State :=
  set_heap (alter f a (heap s)) s.

Definition log (e : lock_event) (s : State) : State :=
  mkState (heap s) (cacheLevels s) (trace s ++ [e]).

Definition set_mutex (b : bool) (L : CacheLevel) : CacheLevel :=
  mkCacheLevel (size L) (evictionPolicy L) (cache L) (accessCount L) b (lowerCache L).

Definition set_cache (c : list (jsval * jsval)) (L : CacheLevel) : CacheLevel :=
  mkCacheLevel (size L) (evictionPolicy L) c (accessCount L) (mutex L) (lowerCache L).

Definition set_accessCount (c : list (jsval * Z)) (L : CacheLevel) : CacheLevel :=
  mkCacheLevel (size L) (evictionPolicy L) (cache L) c (mutex L) (lowerCache L).

(** [setLowerCache]: its body has no [await], so the assignment takes
    effect at the call even though the callers do not await it. *)
Definition setLowerCache (lower : option nat) (L : CacheLevel) : CacheLevel :=
  mkCacheLevel (size L) (evictionPolicy L) (cache L) (accessCount L) (mutex L) lower.

(** Read a field of the level at address [a]. *)
Definition with_level {A} (a : nat) (f : CacheLevel → M A) : M A :=
  fun s => match heap s !! a with
           | Some L => f L s
           | None => Stuck
           end.

(** [await this.mutex.acquire()]: the mutex of async-mutex is not
    re-entrant; a request for a held lock waits for its release. *)
Definition acquire (a : nat) : M unit :=
  with_level a (fun L s =>
    if mutex L then Blocks s
    else Returns tt (log (Acquire a) (update_level a (set_mutex true) s))).

Definition release (a : nat) (s : State) : State :=
  log (Release a) (update_level a (set_mutex false) s).

(** ** CacheLevel *)

(** The scan of [evict] over [accessCount]: [(leastFrequentKey,
    minFrequency)], with [None] for [Infinity]. *)
Fixpoint lfu_scan (m : list (jsval * Z)) (least : jsval) (minf : option Z)
  : jsval * option Z :=
  match m with
  | [] => (least, minf)
  | (key, freq) :: m' =>
      match minf with
      | None => lfu_scan m' key (Some freq)
      | Some f => if freq <? f then lfu_scan m' key (Some freq)
                  else lfu_scan m' least minf
      end
  end.

(** [evict()]: the evicted item ([None] is [null]) and the level after. *)
Definition evict (L : CacheLevel) : option (jsval * jsval) * CacheLevel :=
  if String.eqb (evictionPolicy L) "LRU" then
    let oldestKey := JsMap.first_key (cache L) in
    let value := get_or_undefined oldestKey (cache L) in
    (Some (oldestKey, value), set_cache (JsMap.delete oldestKey (cache L)) L)
  else if String.eqb (evictionPolicy L) "LFU" then
    let leastFrequentKey := fst (lfu_scan (accessCount L) JNull None) in
    if truthy leastFrequentKey then
      let value := get_or_undefined leastFrequentKey (cache L) in
      (Some (leastFrequentKey, value),
       set_accessCount (JsMap.delete leastFrequentKey (accessCount L))
         (set_cache (JsMap.delete leastFrequentKey (cache L)) L))
    else (None, L)
  else (None, L).

(** The two statements of [put] after the eviction block. *)
Definition store_entry (key value : jsval) (L : CacheLevel) : CacheLevel :=
  let L1 := set_cache (JsMap.set key value (cache L)) L in
  if String.eqb (evictionPolicy L1) "LFU" then
    set_accessCount
      (JsMap.set key (count_or_zero key (accessCount L1)) (accessCount L1)) L1
  else L1.

(** [CacheLevel.put].  The function has no [return]: it yields
    [undefined].  The evicted item is handed to [lowerCache.put] while this
    level's mutex is still held. *)
Fixpoint level_put (fuel : nat) (a : nat) (key value : jsval) : M jsval :=
  match fuel with
  | O => fun _ => Stuck
  | S fuel' =>
      acquire a ;;;
      try_finally
        (with_level a (fun L =>
           (if JsMap.size (cache L) >=? size L then
              let '(evictedItem, L') := evict L in
              (fun s => Returns tt (update_level a (fun _ => L') s)) ;;;
              match evictedItem, lowerCache L' with
              | Some (ek, ev), Some b => level_put fuel' b ek ev ;;; ret tt
              | _, _ => ret tt
              end
            else ret tt) ;;;
           (fun s => Returns JUndefined (update_level a (store_entry key value) s))))
        (release a)
  end.

(** The bookkeeping of [get] on a hit. *)
Definition touch (key : jsval) (L : CacheLevel) : CacheLevel :=
  let value := get_or_undefined key (cache L) in
  if String.eqb (evictionPolicy L) "LRU" then
    set_cache (JsMap.set key value (JsMap.delete key (cache L))) L
  else if String.eqb (evictionPolicy L) "LFU" then
    set_accessCount
      (JsMap.set key (count_or_zero key (accessCount L) + 1) (accessCount L)) L
  else L.

(** [CacheLevel.get].  On a miss the level queries its lower neighbour
    while holding its own mutex, and on a truthy answer calls its own
    [put]. *)
Fixpoint level_get (fuel : nat) (a : nat) (key : jsval) : M jsval :=
  match fuel with
  | O => fun _ => Stuck
  | S fuel' =>
      acquire a ;;;
      try_finally
        (with_level a (fun L =>
           if negb (JsMap.has key (cache L)) then
             match lowerCache L with
             | Some b =>
                 let! lowerValue := level_get fuel' b key in
                 if truthy lowerValue then
                   level_put fuel' a key lowerValue ;;; ret lowerValue
                 else ret JNull
             | None => ret JNull
             end
           else
             let value := get_or_undefined key (cache L) in
             (fun s => Returns value (update_level a (touch key) s))))
        (release a)
  end.

(** ** MultiLevelCache *)

(** [new CacheLevel(size, evictionPolicy)] *)
Definition new_level (sz : Z) (policy : string) : CacheLevel :=
  mkCacheLevel sz policy [] [] false None.

(** [new MultiLevelCache()] on a fresh heap. *)
Definition initial : State := mkState [] [] [].

Definition addCacheLevel (sz : Z) (policy : string) : M jsval :=
  fun s =>
    if negb (String.eqb policy "LRU") && negb (String.eqb policy "LFU") then
      Throws (Error "Eviction policy must be LRU or LFU") s
    else
      let a := length (heap s) in
      let h := heap s ++ [new_level sz policy] in
      let h' := match last (cacheLevels s) with
                | Some p => alter (setLowerCache (Some a)) p h
                | None => h
                end in
      Returns JUndefined (mkState h' (cacheLevels s ++ [a]) (trace s)).

(** [MultiLevelCache.put]: [this.cacheLevels[0]] is [undefined] on an empty
    array, and calling a method on it throws. *)
Definition mlc_put (fuel : nat) (key value : jsval) : M jsval :=
  fun s =>
    match cacheLevels s with
    | [] => Throws TypeError s
    | a :: _ => level_put fuel a key value s
    end.

Definition fetchFromMainMemory (fuel : nat) (key : jsval) : M jsval :=
  let value := JString ("data for " +:+ toString key) in
  mlc_put fuel key value ;;; ret value.

(** The inner loop of [MultiLevelCache.get]: [above] lists the levels
    [i-1, ..., 0]. *)
Fixpoint promote (fuel : nat) (above : list nat) (key value : jsval) : M unit :=
  match above with
  | [] => ret tt
  | a :: above' => level_put fuel a key value ;;; promote fuel above' key value
  end.

(** The outer loop of [MultiLevelCache.get] at index [length above]. *)
Fixpoint get_loop (fuel : nat) (above rest : list nat) (key : jsval) : M jsval :=
  match rest with
  | [] => fetchFromMainMemory fuel key
  | a :: rest' =>
      let! value := level_get fuel a key in
      if decide (value = JNull) then get_loop fuel (a :: above) rest' key
      else (promote fuel above key value ;;; ret value)
  end.

Definition mlc_get (fuel : nat) (key : jsval) : M jsval :=
  fun s => get_loop fuel [] (cacheLevels s) key s.

(** The re-linking loop of [removeCacheLevel]: [n] iterations from index [i]
    over the array [levels] as it is after the splice. *)
Fixpoint relink (levels : list nat) (i n : nat) (h : list CacheLevel)
  : list CacheLevel :=
  match n with
  | O => h
  | S n' =>
      let target := if decide (i < length levels - 1)%nat
                    then levels !! S i else None in
      let h' := match levels !! i with
                | Some a => alter (setLowerCache target) a h
                | None => h
                end in
      relink levels (S i) n' h'
  end.

Definition removeCacheLevel (level : Z) : M jsval :=
  fun s =>
    if (0 <=? level) && (level <? Z.of_nat (length (cacheLevels s))) then
      let i := Z.to_nat level in
      let levels := delete i (cacheLevels s) in
      Returns JUndefined
        (mkState (relink levels i (length levels - i) (heap s)) levels (trace s))
    else Throws (Error "Invalid cache level index") s.

(** [display]: the entries of a level, read-only. *)
Definition entries (a : nat) (s : State) : list (jsval * jsval) :=
  from_option cache [] (heap s !! a).

Definition counters (a : nat) (s : State) : list (jsval * Z) :=
  from_option accessCount [] (heap s !! a).

Definition lower_of (a : nat) (s : State) : option nat :=
  heap s !! a ≫= lowerCache.

(** ** Well-formed states *)

(** Levels are allocated in increasing address order and a [lowerCache]
    field only ever receives a level created later, so links point upward
    in the heap. *)
Definition acyclic (h : list CacheLevel) : Prop :=
  ∀ a L b, h !! a = Some L → lowerCache L = Some b → (a < b < length h)%nat.

(** No mutex at address [a] or above is held. *)
Definition unlocked_from (a : nat) (h : list CacheLevel) : Prop :=
  ∀ b L, (a ≤ b)%nat → h !! b = Some L → mutex L = false.

Definition quiescent (h : list CacheLevel) : Prop := unlocked_from 0 h.

(** Boolean counterparts, for concrete states. *)
Definition acyclicb (h : list CacheLevel) : bool :=
  forallb (fun '(a, L) =>
             match lowerCache L with
             | Some b => bool_decide (a < b < length h)%nat
             | None => true
             end) (imap pair h).

Definition quiescentb (h : list CacheLevel) : bool :=
  forallb (fun L => negb (mutex L)) h.

(** The fields of a level that [get] and [put] never assign. *)
Definition same_shape (L L' : CacheLevel) : Prop :=
  size L' = size L ∧ evictionPolicy L' = evictionPolicy L ∧
  lowerCache L' = lowerCache L ∧ mutex L' = mutex L.

(** [frame a h h']: [h'] has the levels of [h], with the same shape, and
    those below address [a] untouched. *)
Definition frame (a : nat) (h h' : list CacheLevel) : Prop :=
  length h' = length h ∧
  ∀ b L, h !! b = Some L →
    ∃ L', h' !! b = Some L' ∧ same_shape L L' ∧ ((b < a)%nat → L' = L).

(** The levels reachable from [a] through [lowerCache], [a] first. *)
Fixpoint chain_from (n : nat) (h : list CacheLevel) (a : nat) : list nat :=
  match n with
  | O => []
  | S n' =>
      a :: match h !! a ≫= lowerCache with
           | Some b => chain_from n' h b
           | None => []
           end
  end.

(** Locks taken one inside the other and released in reverse order. *)
Definition nested (l : list nat) : list lock_event :=
  (Acquire <$> l) ++ (Release <$> reverse l).

(** Addresses of the locks held after a trace, most recent first. *)
Fixpoint held_after (held : list nat) (t : list lock_event) : list nat :=
  match t with
  | [] => held
  | Acquire a :: t' => held_after (a :: held) t'
  | Release a :: t' => held_after (filter (fun b => b ≠ a) held) t'
  end.

(** The largest number of locks held at once along a trace. *)
Fixpoint max_held (held : list nat) (t : list lock_event) : nat :=
  match t with
  | [] => length held
  | e :: t' => length held `max` max_held (held_after held [e]) t'
  end.

Definition completes {A} (o : outcome A) : Prop := ∃ a s, o = Returns a s.

(** The chain invariant of the specification. *)
Definition linked (s : State) : Prop :=
  ∀ j a, cacheLevels s !! j = Some a → lower_of a s = cacheLevels s !! S j.

(** The array of levels lists addresses in allocation order. *)
Definition increasing (l : list nat) : Prop :=
  ∀ i j a b, (i < j)%nat → l !! i = Some a → l !! j = Some b → (a < b)%nat.

(** The states in which no call is pending. *)
Definition wf (s : State) : Prop :=
  acyclic (heap s) ∧ quiescent (heap s) ∧
  Forall (fun a => (a < length (heap s))%nat) (cacheLevels s) ∧
  increasing (cacheLevels s).

(** The checks of [addCacheLevel] and [removeCacheLevel]. *)
Definition valid_policy (p : string) : Prop := p = "LRU"%string ∨ p = "LFU"%string.

Definition valid_index (i : Z) (s : State) : Prop :=
  0 ≤ i < Z.of_nat (length (cacheLevels s)).

(** ** A lock-free reading of [put]

    What one [put] does to the level it is called on: the eviction when
    the store is full, then the insertion. *)
Definition at_capacity (L : CacheLevel) : bool :=
  JsMap.size (cache L) >=? size L.

Definition put_local (key value : jsval) (L : CacheLevel) : CacheLevel :=
  store_entry key value (if at_capacity L then (evict L).2 else L).

(** The item that [put] hands to the lower level, if any. *)
Definition demoted (L : CacheLevel) : option (jsval * jsval) :=
  if at_capacity L then (evict L).1 else None.

(** The whole demotion cascade started by a [put] at address [a], as a
    function on heaps: the heap afterwards and the levels visited, top
    first. *)
Fixpoint cascade (fuel : nat) (a : nat) (key value : jsval)
    (h : list CacheLevel) : list CacheLevel * list nat :=
  match fuel with
  | O => (h, [])
  | S fuel' =>
      match h !! a with
      | None => (h, [])
      | Some L =>
          let '(h', l) :=
            match demoted L, lowerCache L with
            | Some (ek, ev), Some b => cascade fuel' b ek ev h
            | _, _ => (h, [])
            end in
          (<[a := put_local key value L]> h', a :: l)
      end
  end.

(** ** The command loop

    The read-eval loop awaits each command before it prompts for the next
    one, and it catches what a command throws; a command that never
    settles ends the session. *)
Inductive command : Type :=
  | CAdd (sz : Z) (policy : string)
  | CGet (key : jsval)
  | CPut (key value : jsval)
  | CRemove (level : Z).

Definition dispatch (fuel : nat) (c : command) : M jsval :=
  match c with
  | CAdd sz policy => addCacheLevel sz policy
  | CGet key => mlc_get fuel key
  | CPut key value => mlc_put fuel key value
  | CRemove level => removeCacheLevel level
  end.

(** The state after a list of commands, if every one of them settles. *)
Fixpoint session (fuel : nat) (cmds : list command) (s : State) : option State :=
  match cmds with
  | [] => Some s
  | c :: cmds' =>
      match dispatch fuel c s with
      | Returns _ s' | Throws _ s' => session fuel cmds' s'
      | Blocks _ | Stuck => None
      end
  end.

(** ** Scenarios

    States reached from the empty cache by a list of commands. *)
Definition after (cmds : list command) : State :=
  default initial (session 4 cmds initial).

(** Two LRU levels of capacity 1; the second [put] demotes [a]. *)
Definition two_level_script : list command :=
  [CAdd 1 "LRU"; CAdd 1 "LRU";
   CPut (JString "a") (JNumber 1); CPut (JString "b") (JNumber 2)].

Definition demoted_state : State := Eval vm_compute in after two_level_script.

(** Three empty LRU levels of capacity 1. *)
Definition three_level_script : list command :=
  [CAdd 1 "LRU"; CAdd 1 "LRU"; CAdd 1 "LRU"].

Definition three_level_state : State := Eval vm_compute in after three_level_script.

(** One full LRU level of capacity 1. *)
Definition full_lru_script : list command :=
  [CAdd 1 "LRU"; CPut (JString "a") (JNumber 1)].

Definition full_lru_state : State := Eval vm_compute in after full_lru_script.

(** One level of capacity 2, empty. *)
Definition single_level (policy : string) : State :=
  mkState [new_level 2 policy] [0%nat] [].

(** One level of capacity 0. *)
Definition zero_capacity_state : State := Eval vm_compute in after [CAdd 0 "LFU"].

Definition linkedb (s : State) : bool :=
  forallb (fun '(j, a) =>
             bool_decide (lower_of a s = cacheLevels s !! S j))
          (imap pair (cacheLevels s)).

(** ** Local steps and invariants *)

(** The two ways in which [get] and [put] change a level: a whole [put]
    (eviction when full, then insertion) and the bookkeeping of a hit. *)
Inductive local_step : CacheLevel → CacheLevel → Prop :=
  | step_put k v L : local_step L (put_local k v L)
  | step_touch k L : JsMap.has k (cache L) = true → local_step L (touch k L).

Definition evolves : CacheLevel → CacheLevel → Prop := rtc local_step.

Definition heap_evolves (h h' : list CacheLevel) : Prop :=
  length h' = length h ∧
  ∀ c L, h !! c = Some L → ∃ L', h' !! c = Some L' ∧ evolves L L'.

(** A property of single levels that [put], a hit of [get], the
    constructor and [setLowerCache] all keep. *)
Record level_invariant (P : CacheLevel → Prop) : Prop := {
  inv_new sz p : P (new_level sz p);
  inv_put k v L : P L → P (put_local k v L);
  inv_touch k L : JsMap.has k (cache L) = true → P L → P (touch k L);
  inv_link lower L : P L → P (setLowerCache lower L)
}.

(** An LRU level of positive capacity holds no more entries than its
    capacity. *)
Definition lru_within_capacity (L : CacheLevel) : Prop :=
  evictionPolicy L = "LRU"%string → 0 < size L → JsMap.size (cache L) ≤ size L.

(** On an LFU level the two maps list the same keys in the same order, and
    no counter is negative. *)
Definition lfu_in_sync (L : CacheLevel) : Prop :=
  evictionPolicy L = "LFU"%string →
  (cache L).*1 = (accessCount L).*1 ∧ Forall (fun e => 0 ≤ e.2) (accessCount L).

(** No key occurs twice in a map of the level. *)
Definition keys_unique (L : CacheLevel) : Prop :=
  NoDup (cache L).*1 ∧ NoDup (accessCount L).*1.

(** Where a search from level [a] down the [lowerCache] links first finds
    the key, and the value stored there. *)
Fixpoint lookup_down (n : nat) (h : list CacheLevel) (a : nat) (k : jsval)
  : option (nat * jsval) :=
  match n with
  | O => None
  | S n' =>
      match h !! a with
      | None => None
      | Some L =>
          if JsMap.has k (cache L) then Some (a, get_or_undefined k (cache L))
          else match lowerCache L with
               | Some b => lookup_down n' h b k
               | None => None
               end
      end
  end.

(** ** display

    [CacheLevel.display]: the entries in [Map] order, rendered under the
    level's lock. *)
Definition render_entry (e : jsval * jsval) : string :=
  toString e.1 +:+ ": " +:+ toString e.2.

(** [Array.prototype.join] on strings. *)
Fixpoint join (sep : string) (l : list string) : string :=
  match l with
  | [] => EmptyString
  | x :: l' =>
      match l' with
      | [] => x
      | _ :: _ => x +:+ sep +:+ join sep l'
      end
  end.

Definition render_level (L : CacheLevel) : string :=
  "[" +:+ join ", " (render_entry <$> cache L) +:+ "]".

Definition level_display (a : nat) : M string :=
  acquire a ;;;
  try_finally (with_level a (fun L => ret (render_level L))) (release a).

(** The label of the level at index [i], as the conditional in
    [displayCache] builds it. *)
Definition level_label (i : nat) : string :=
  if decide (i = 0%nat) then "L1" else "L" +:+ pretty (S i).

(** [MultiLevelCache.displayCache] from index [i] on: the lines written
    to the console so far, and how the call ends. *)
Fixpoint displayCache_from (i : nat) (levels : list nat) (s : State)
  : list string * outcome unit :=
  match levels with
  | [] => ([], Returns tt s)
  | a :: rest =>
      match level_display a s with
      | Returns d s' =>
          let '(out, o) := displayCache_from (S i) rest s' in
          ((level_label i +:+ " Cache: " +:+ d) :: out, o)
      | Throws e s' => ([], Throws e s')
      | Blocks s' => ([], Blocks s')
      | Stuck => ([], Stuck)
      end
  end.

Definition displayCache (s : State) : list string * outcome unit :=
  displayCache_from 0 (cacheLevels s) s.

(** ** The command line

    The handler that [promptUser] passes to [rl.question].  [parseInt] is
    the built-in; [None] stands for [NaN], and a number is an integer that
    a template literal prints in decimal digits (one below 10^21). *)

(** [command.split(' ')]: one token per single space, empty tokens kept. *)
Fixpoint split_space (s : string) : list string :=
  match s with
  | EmptyString => [EmptyString]
  | String c s' =>
      if Ascii.eqb c " "%char then EmptyString :: split_space s'
      else match split_space s' with
           | [] => [String c EmptyString]
           | t :: ts => String c t :: ts
           end
  end.

(** What goes to the console: [console.log(line)], or
    [console.error('Error:', error.message)] for a caught error. *)
Inductive printed : Type :=
  | Log (line : string)
  | LogError (e : exn).

(** Whether the handler prompts again ([promptUser()]) or has closed the
    interface ([quit]). *)
Inductive next : Type := Prompt | Closed.

(** One awaited call of the cache inside the [try] block of the handler,
    followed by a [console.log] of its result. *)
Definition call_then_log {A} (m : M A) (msg : A → string) (s : State)
  : list printed * outcome next :=
  match m s with
  | Returns r s' => ([Log (msg r)], Returns Prompt s')
  | Throws e s' => ([LogError e], Returns Prompt s')
  | Blocks s' => ([], Blocks s')
  | Stuck => ([], Stuck)
  end.

Section CommandLine.
Variable parseInt : string → option Z.

Definition handle (fuel : nat) (line : string) (s : State)
  : list printed * outcome next :=
  match split_space line with
  | [] => ([Log "Unknown command"], Returns Prompt s)
  | cmd :: args =>
      if String.eqb cmd "addCacheLevel" then
        match args with
        | [a0; a1] =>
            match parseInt a0 with
            | Some sz =>
                if negb (String.eqb a1 "LRU" || String.eqb a1 "LFU") then
                  ([Log "Invalid size or eviction policy"], Returns Prompt s)
                else
                  call_then_log (addCacheLevel sz a1)
                    (fun _ => "Cache level added: Size " +:+ pretty sz +:+
                              ", Policy " +:+ a1) s
            | None => ([Log "Invalid size or eviction policy"], Returns Prompt s)
            end
        | _ => ([Log "Usage: addCacheLevel <size> <evictionPolicy>"],
                Returns Prompt s)
        end
      else if String.eqb cmd "get" then
        match args with
        | [key] =>
            call_then_log (mlc_get fuel (JString key))
              (fun result => "Value for key '" +:+ key +:+ "': " +:+
                             (if truthy result then toString result else "null")) s
        | _ => ([Log "Usage: get <key>"], Returns Prompt s)
        end
      else if String.eqb cmd "put" then
        match args with
        | [putKey; value] =>
            call_then_log (mlc_put fuel (JString putKey) (JString value))
              (fun _ => "Inserted: " +:+ putKey +:+ " => " +:+ value) s
        | _ => ([Log "Usage: put <key> <value>"], Returns Prompt s)
        end
      else if String.eqb cmd "removeCacheLevel" then
        match args with
        | [a0] =>
            match parseInt a0 with
            | Some level =>
                call_then_log (removeCacheLevel level)
                  (fun _ => "Cache level removed: " +:+ pretty level) s
            | None => ([Log "Invalid cache level"], Returns Prompt s)
            end
        | _ => ([Log "Usage: removeCacheLevel <level>"], Returns Prompt s)
        end
      else if String.eqb cmd "displayCache" then
        match displayCache s with
        | (out, Returns _ s') => (Log <$> out, Returns Prompt s')
        | (out, Throws e s') => ((Log <$> out) ++ [LogError e], Returns Prompt s')
        | (out, Blocks s') => (Log <$> out, Blocks s')
        | (out, Stuck) => (Log <$> out, Stuck)
        end
      else if String.eqb cmd "quit" then ([], Returns Closed s)
      else ([Log "Unknown command"], Returns Prompt s)
  end.
End CommandLine.

(** A token: a string without a space. *)
Fixpoint no_space (s : string) : bool :=
  match s with
  | EmptyString => true
  | String c s' => negb (Ascii.eqb c " "%char) && no_space s'
  end.

(** * Properties *)

(** ** The [Map] model *)

Section JsMap_facts.
Context {V : Type}.
Implicit Types (m : list (jsval * V)) (k : jsval) (v : V).

Lemma has_get k m : JsMap.has k m = true ↔ is_Some (JsMap.get k m).
Proof.
  induction m as [|[k' v'] m IH]; simpl.
  - split; [done | by intros [? ?]].
  - case_decide; [split; eauto | done].
Qed.

Lemma has_false_get k m : JsMap.has k m = false ↔ JsMap.get k m = None.
Proof.
  induction m as [|[k' v'] m IH]; simpl; [done|].
  case_decide; [split; done | done].
Qed.

Lemma get_set_eq k v m : JsMap.get k (JsMap.set k v m) = Some v.
Proof.
  induction m as [|[k' v'] m IH]; simpl.
  - by rewrite decide_True.
  - case_decide; simpl; [by rewrite decide_True | by rewrite decide_False].
Qed.

Lemma get_set_ne k k' v m :
  k ≠ k' → JsMap.get k' (JsMap.set k v m) = JsMap.get k' m.
Proof.
  intros Hne. induction m as [|[k0 v0] m IH]; simpl.
  - by rewrite decide_False.
  - destruct (decide (k = k0)) as [->|]; simpl.
    + by rewrite !decide_False.
    + by rewrite IH.
Qed.

Lemma has_set k k' v m :
  JsMap.has k' (JsMap.set k v m) = bool_decide (k' = k) || JsMap.has k' m.
Proof.
  induction m as [|[k0 v0] m IH]; simpl.
  - by case_decide; case_bool_decide.
  - destruct (decide (k = k0)) as [->|]; simpl.
    + by case_decide; case_bool_decide.
    + rewrite IH. destruct (decide (k' = k0)), (bool_decide (k' = k)); done.
Qed.

Lemma length_set_new k v m :
  JsMap.has k m = false → length (JsMap.set k v m) = S (length m).
Proof.
  induction m as [|[k' v'] m IH]; simpl; [done|].
  case_decide; [done|]. intros. simpl. by rewrite IH.
Qed.

Lemma length_set_old k v m :
  JsMap.has k m = true → length (JsMap.set k v m) = length m.
Proof.
  induction m as [|[k' v'] m IH]; simpl; [done|].
  case_decide; [done|]. intros. simpl. by rewrite IH.
Qed.

Lemma length_set_le k v m : (length (JsMap.set k v m) ≤ S (length m))%nat.
Proof.
  destruct (JsMap.has k m) eqn:E.
  - rewrite length_set_old by done. lia.
  - by rewrite length_set_new.
Qed.

Lemma length_set_ge k v m : (1 ≤ length (JsMap.set k v m))%nat.
Proof. destruct m as [|[? ?] ?]; simpl; [lia|]. case_decide; simpl; lia. Qed.

Lemma length_delete_has k m :
  JsMap.has k m = true → S (length (JsMap.delete k m)) = length m.
Proof.
  induction m as [|[k' v'] m IH]; simpl; [done|].
  case_decide; [done|]. intros. simpl. by rewrite IH.
Qed.

Lemma delete_absent k m : JsMap.has k m = false → JsMap.delete k m = m.
Proof.
  induction m as [|[k' v'] m IH]; simpl; [done|].
  case_decide; [done|]. intros. by rewrite IH.
Qed.

Lemma has_delete_ne k k' m :
  k ≠ k' → JsMap.has k' (JsMap.delete k m) = JsMap.has k' m.
Proof.
  intros Hne. induction m as [|[k0 v0] m IH]; simpl; [done|].
  destruct (decide (k = k0)) as [->|]; simpl.
  - by rewrite decide_False.
  - by rewrite IH.
Qed.
End JsMap_facts.

(** ** Level records *)

Lemma set_mutex_id b L : mutex L = b → set_mutex b L = L.
Proof. destruct L; simpl; by intros ->. Qed.

Lemma set_mutex_twice b b' L : set_mutex b (set_mutex b' L) = set_mutex b L.
Proof. done. Qed.

Lemma evict_set_mutex b L :
  evict (set_mutex b L) = ((evict L).1, set_mutex b (evict L).2).
Proof.
  unfold evict; simpl.
  repeat (case_match; simpl; try done).
Qed.

Lemma store_entry_set_mutex b k v L :
  store_entry k v (set_mutex b L) = set_mutex b (store_entry k v L).
Proof. unfold store_entry; simpl. by case_match. Qed.

Lemma evict_shape L : same_shape L (evict L).2.
Proof. unfold evict, same_shape. repeat (case_match; simpl; try done). Qed.

Lemma store_entry_shape k v L : same_shape L (store_entry k v L).
Proof. unfold store_entry, same_shape; simpl. by case_match. Qed.

Lemma touch_shape k L : same_shape L (touch k L).
Proof. unfold touch, same_shape. repeat (case_match; simpl; try done). Qed.

Lemma same_shape_refl L : same_shape L L.
Proof. done. Qed.

Lemma same_shape_trans L1 L2 L3 :
  same_shape L1 L2 → same_shape L2 L3 → same_shape L1 L3.
Proof. unfold same_shape. intros (?&?&?&?) (?&?&?&?). repeat split; congruence. Qed.

(** ** Heaps *)

Lemma alter_insert (h : list CacheLevel) a f L :
  h !! a = Some L → alter f a h = <[a := f L]> h.
Proof.
  intros Ha. apply list_eq. intros i.
  destruct (decide (a = i)) as [->|].
  - rewrite list_lookup_alter_eq, Ha. simpl.
    by rewrite list_lookup_insert_eq by (by eapply lookup_lt_Some).
  - by rewrite list_lookup_alter_ne, list_lookup_insert_ne.
Qed.

Lemma frame_refl a h : frame a h h.
Proof. split; [done|]. intros b L Hb. exists L. done. Qed.

Lemma frame_insert a c h L L' :
  (a ≤ c)%nat → h !! c = Some L → same_shape L L' → frame a h (<[c := L']> h).
Proof.
  intros Hac Hc Hs. split; [by rewrite length_insert|].
  intros b Lb Hb. destruct (decide (c = b)) as [->|].
  - exists L'. rewrite list_lookup_insert_eq by (by eapply lookup_lt_Some).
    simplify_eq. split_and!; [done..|lia].
  - exists Lb. by rewrite list_lookup_insert_ne.
Qed.

Lemma frame_trans a b h1 h2 h3 :
  (a ≤ b)%nat → frame a h1 h2 → frame b h2 h3 → frame a h1 h3.
Proof.
  intros Hab [Hl1 H1] [Hl2 H2]. split; [congruence|].
  intros c L Hc. destruct (H1 c L Hc) as (L2 & Hc2 & Hs2 & He2).
  destruct (H2 c L2 Hc2) as (L3 & Hc3 & Hs3 & He3).
  exists L3. split_and!; [done|by eapply same_shape_trans|].
  intros. rewrite He3, He2 by lia. done.
Qed.

Lemma frame_weaken a b h h' : (a ≤ b)%nat → frame b h h' → frame a h h'.
Proof.
  intros Hab [Hl H]. split; [done|]. intros c L Hc.
  destruct (H c L Hc) as (L' & ? & ? & He). exists L'. split_and!; [done..|].
  intros. apply He. lia.
Qed.

Lemma frame_lookup_lt a h h' c L :
  frame a h h' → (c < a)%nat → h !! c = Some L → h' !! c = Some L.
Proof. intros [_ H] ? Hc. destruct (H c L Hc) as (L' & ? & _ & He). by rewrite <-He. Qed.

Lemma frame_lookup_inv a h h' c L' :
  frame a h h' → h' !! c = Some L' → ∃ L, h !! c = Some L ∧ same_shape L L'.
Proof.
  intros [Hl H] Hc.
  destruct (lookup_lt_is_Some_2 h c) as [L HL].
  { rewrite <-Hl. by eapply lookup_lt_Some. }
  destruct (H c L HL) as (L2 & ? & ? & _). exists L. by simplify_eq.
Qed.

Lemma frame_acyclic a h h' : frame a h h' → acyclic h → acyclic h'.
Proof.
  intros Hf Hac c L' b Hc Hb.
  destruct (frame_lookup_inv _ _ _ _ _ Hf Hc) as (L & HL & (_ & _ & Hlow & _)).
  destruct Hf as [-> _]. eapply Hac; [done|congruence].
Qed.

Lemma frame_unlocked a b h h' :
  frame a h h' → unlocked_from b h → unlocked_from b h'.
Proof.
  intros Hf Hu c L' Hbc Hc.
  destruct (frame_lookup_inv _ _ _ _ _ Hf Hc) as (L & HL & (_ & _ & _ & Hm)).
  rewrite Hm. by eapply Hu.
Qed.

Lemma acyclicb_spec h : acyclicb h = true → acyclic h.
Proof.
  unfold acyclicb. rewrite forallb_forall. intros H a L b Ha Hb.
  specialize (H (a, L)). simpl in H. rewrite Hb in H.
  rewrite bool_decide_eq_true in H. apply H, list_elem_of_In.
  apply list_elem_of_lookup. exists a. by rewrite list_lookup_imap, Ha.
Qed.

Lemma quiescentb_spec h : quiescentb h = true → quiescent h.
Proof.
  unfold quiescentb. rewrite forallb_forall. intros H b L _ Hb.
  apply negb_true_iff, H, list_elem_of_In. by eapply list_elem_of_lookup_2.
Qed.

(** ** The demotion cascade *)

Lemma put_local_shape k v L : same_shape L (put_local k v L).
Proof.
  unfold put_local. case_match.
  - eapply same_shape_trans; [apply evict_shape | apply store_entry_shape].
  - apply store_entry_shape.
Qed.

Lemma cascade_length fuel a k v h : length (cascade fuel a k v h).1 = length h.
Proof.
  revert a k v. induction fuel as [|fuel IH]; intros a k v; simpl; [done|].
  destruct (h !! a) as [L|]; [|done].
  destruct (demoted L) as [[ek ev]|], (lowerCache L) as [b|]; simpl;
    rewrite ?length_insert; try done.
  specialize (IH b ek ev). destruct (cascade fuel b ek ev h). simpl in *.
  by rewrite length_insert.
Qed.

Lemma cascade_frame fuel a k v h :
  acyclic h → frame a h (cascade fuel a k v h).1.
Proof.
  intros Hac. revert a k v.
  induction fuel as [|fuel IH]; intros a k v; simpl; [apply frame_refl|].
  destruct (h !! a) as [L|] eqn:Ha; [|apply frame_refl].
  destruct (demoted L) as [[ek ev]|] eqn:Hd, (lowerCache L) as [b|] eqn:Hb; simpl;
    try (eapply frame_insert; [lia|done|apply put_local_shape]).
  specialize (IH b ek ev). destruct (cascade fuel b ek ev h) as [h' l]. simpl in *.
  destruct (Hac a L b Ha Hb) as [Hlt _].
  eapply frame_trans; [reflexivity| |].
  - eapply frame_trans; [|apply frame_refl|apply IH]. lia.
  - eapply frame_insert; [lia|by eapply frame_lookup_lt|apply put_local_shape].
Qed.

Lemma cascade_lookup_top fuel a k v h L :
  h !! a = Some L →
  (cascade (S fuel) a k v h).1 !! a = Some (put_local k v L).
Proof.
  intros Ha. simpl. rewrite Ha.
  destruct (demoted L) as [[ek ev]|], (lowerCache L) as [b|]; simpl;
    try (apply list_lookup_insert_eq; by eapply lookup_lt_Some).
  pose proof (cascade_length fuel b ek ev h) as Hl.
  destruct (cascade fuel b ek ev h) as [h' l]. simpl in *.
  apply list_lookup_insert_eq. rewrite Hl. by eapply lookup_lt_Some.
Qed.

Lemma cascade_insert_below fuel a c k v h X :
  acyclic h → (c < a)%nat →
  cascade fuel a k v (<[c := X]> h) =
  (<[c := X]> (cascade fuel a k v h).1, (cascade fuel a k v h).2).
Proof.
  intros Hac. revert a k v.
  induction fuel as [|fuel IH]; intros a k v Hca; simpl; [done|].
  rewrite list_lookup_insert_ne by lia.
  destruct (h !! a) as [L|] eqn:Ha; [|done].
  destruct (demoted L) as [[ek ev]|] eqn:Hd, (lowerCache L) as [b|] eqn:Hb; simpl;
    try (by rewrite list_insert_insert_ne by lia).
  destruct (Hac a L b Ha Hb) as [Hlt _].
  rewrite IH by lia. destruct (cascade fuel b ek ev h) as [h' l]. simpl.
  by rewrite list_insert_insert_ne by lia.
Qed.

Lemma cascade_path fuel a k v h :
  acyclic h →
  Forall (fun c => (a ≤ c)%nat) (cascade fuel a k v h).2 ∧
  StronglySorted lt (cascade fuel a k v h).2.
Proof.
  intros Hac. revert a k v.
  induction fuel as [|fuel IH]; intros a k v; simpl.
  { split; constructor. }
  destruct (h !! a) as [L|] eqn:Ha; [|split; constructor].
  destruct (demoted L) as [[ek ev]|] eqn:Hd, (lowerCache L) as [b|] eqn:Hb; simpl;
    try (split; repeat constructor; done).
  destruct (Hac a L b Ha Hb) as [Hlt _].
  destruct (IH b ek ev) as [Hge Hs]. destruct (cascade fuel b ek ev h) as [h' l].
  simpl in *. split.
  - constructor; [done|]. eapply Forall_impl; [done|]. simpl. lia.
  - constructor; [done|]. eapply Forall_impl; [done|]. simpl. lia.
Qed.

Lemma cascade_head fuel a k v h L :
  h !! a = Some L → head (cascade (S fuel) a k v h).2 = Some a.
Proof.
  intros Ha. simpl. rewrite Ha.
  destruct (demoted L) as [[ek ev]|], (lowerCache L) as [b|]; simpl; try done.
  by destruct (cascade fuel b ek ev h).
Qed.

(** ** Lock traces *)

Lemma nested_cons a l : nested (a :: l) = Acquire a :: nested l ++ [Release a].
Proof.
  unfold nested. rewrite reverse_cons, fmap_app. simpl.
  by rewrite <-!app_assoc.
Qed.

(** ** [CacheLevel.put] runs the cascade *)

Lemma acyclic_insert h a L L' :
  acyclic h → h !! a = Some L → lowerCache L' = lowerCache L →
  acyclic (<[a := L']> h).
Proof.
  intros Hac Ha Hl c Lc b Hc Hb. rewrite length_insert.
  destruct (decide (a = c)) as [->|].
  - rewrite list_lookup_insert_eq in Hc by (by eapply lookup_lt_Some).
    simplify_eq. eapply Hac; [done|congruence].
  - rewrite list_lookup_insert_ne in Hc by done. by eapply Hac.
Qed.

Lemma unlocked_from_insert h a b L' :
  unlocked_from b h → (a < b)%nat → unlocked_from b (<[a := L']> h).
Proof.
  intros Hu Hab c L Hbc Hc.
  rewrite list_lookup_insert_ne in Hc by lia. by eapply Hu.
Qed.

Lemma store_entry_mutex k v L : mutex (store_entry k v L) = mutex L.
Proof. apply store_entry_shape. Qed.

Lemma alter_insert_eq (h : list CacheLevel) a f X :
  (a < length h)%nat → alter f a (<[a := X]> h) = <[a := f X]> h.
Proof.
  intros Hlt. rewrite (alter_insert _ _ _ X) by (by apply list_lookup_insert_eq).
  apply list_insert_insert_eq.
Qed.

(** Closes a branch of [put] in which no lower level is called. *)
Ltac close_put :=
  unfold ret, release, update_level, log, set_heap; simpl;
  rewrite !alter_insert_eq by lia;
  rewrite store_entry_set_mutex; simpl;
  rewrite set_mutex_twice, (set_mutex_id false) by (by rewrite store_entry_mutex);
  by rewrite <-!app_assoc.

Lemma level_put_cascade fuel a k v s :
  acyclic (heap s) → unlocked_from a (heap s) →
  (a < length (heap s))%nat → (length (heap s) - a ≤ fuel)%nat →
  level_put fuel a k v s =
  Returns JUndefined
    (mkState (cascade fuel a k v (heap s)).1 (cacheLevels s)
             (trace s ++ nested (cascade fuel a k v (heap s)).2)).
Proof.
  revert a k v s. induction fuel as [|fuel IH]; intros a k v [h cl t];
    simpl; intros Hac Hun Hlt Hfuel; [lia|].
  destruct (lookup_lt_is_Some_2 h a Hlt) as [L Ha].
  assert (Hm : mutex L = false) by (by eapply Hun).
  unfold bind at 1, acquire, with_level. simpl. rewrite Ha, Hm.
  unfold try_finally, with_level, update_level, set_heap, log. simpl.
  rewrite (alter_insert _ _ _ _ Ha).
  rewrite list_lookup_insert_eq by done.
  unfold bind at 1. unfold put_local, demoted, at_capacity in *. simpl.
  destruct (JsMap.size (cache L) >=? size L) eqn:Hfull; simpl.
  - rewrite evict_set_mutex. unfold bind at 1. simpl.
    rewrite alter_insert_eq by done.
    destruct (evict L) as [item L'] eqn:Hev. simpl.
    pose proof (evict_shape L) as (_ & _ & Hlow & Hmut). rewrite Hev in Hlow, Hmut.
    simpl in Hlow, Hmut. rewrite Hlow. rewrite <-Hmut in Hm.
    destruct item as [[ek ev]|], (lowerCache L) as [b|] eqn:Hb; simpl.
    + destruct (Hac a L b Ha Hb) as [Hab Hbl]. simpl in *.
      unfold bind at 1. rewrite IH; simpl; rewrite ?length_insert; try lia.
      2:{ eapply acyclic_insert; [done..|]. simpl. congruence. }
      2:{ apply unlocked_from_insert; [|done].
          intros c Lc ? ?. eapply (Hun c); [lia|done]. }
      unfold ret, release, update_level, log, set_heap. simpl.
      rewrite cascade_insert_below by done.
      destruct (cascade fuel b ek ev h) as [h' l] eqn:Hc. simpl.
      pose proof (cascade_length fuel b ek ev h) as Hl. rewrite Hc in Hl. simpl in Hl.
      rewrite !alter_insert_eq by lia.
      rewrite store_entry_set_mutex. simpl.
      rewrite set_mutex_twice, (set_mutex_id false) by (by rewrite store_entry_mutex).
      rewrite nested_cons. by rewrite <-!app_assoc.
    + close_put.
    + close_put.
    + close_put.
  - close_put.
Qed.

(** ** [CacheLevel.get] *)

Lemma chain_from_ge n h a :
  acyclic h → Forall (fun c => (a ≤ c)%nat) (chain_from n h a).
Proof.
  intros Hac. revert a. induction n as [|n IH]; intros a; simpl; [constructor|].
  constructor; [done|].
  destruct (h !! a) as [L|] eqn:Ha; simpl; [|constructor].
  destruct (lowerCache L) as [b|] eqn:Hb; [|constructor].
  destruct (Hac a L b Ha Hb) as [Hlt _].
  eapply Forall_impl; [apply IH|]. simpl. lia.
Qed.

Lemma chain_from_insert_below n h a c X :
  acyclic h → (c < a)%nat → chain_from n (<[c := X]> h) a = chain_from n h a.
Proof.
  intros Hac. revert a. induction n as [|n IH]; intros a Hca; simpl; [done|].
  rewrite list_lookup_insert_ne by lia.
  destruct (h !! a) as [L|] eqn:Ha; simpl; [|done].
  destruct (lowerCache L) as [b|] eqn:Hb; [|done].
  destruct (Hac a L b Ha Hb) as [Hlt _]. rewrite IH by lia. done.
Qed.

(** A hit in the level's own store: the value is returned and only this
    level's bookkeeping changes. *)
Lemma level_get_hit fuel a k s L :
  heap s !! a = Some L → mutex L = false → JsMap.has k (cache L) = true →
  level_get (S fuel) a k s =
  Returns (get_or_undefined k (cache L))
    (mkState (<[a := touch k L]> (heap s)) (cacheLevels s)
             (trace s ++ [Acquire a; Release a])).
Proof.
  destruct s as [h cl t]. simpl. intros Ha Hm Hhas.
  assert (Hlt : (a < length h)%nat) by (by eapply lookup_lt_Some).
  unfold bind at 1, acquire, with_level. simpl. rewrite Ha, Hm.
  unfold try_finally, with_level, update_level, set_heap, log. simpl.
  rewrite (alter_insert _ _ _ _ Ha).
  rewrite list_lookup_insert_eq by done. simpl. rewrite Hhas. simpl.
  unfold release, update_level, log, set_heap. simpl.
  rewrite !alter_insert_eq by lia.
  assert (touch k (set_mutex true L) = set_mutex true (touch k L)) as ->.
  { unfold touch. simpl. repeat case_match; done. }
  rewrite set_mutex_twice, (set_mutex_id false)
    by (by destruct (touch_shape k L) as (_&_&_&->)).
  by rewrite <-!app_assoc.
Qed.

(** A miss in the level's own store sends the level down its chain: when
    the key is in none of the levels below either, every one of them is
    locked and searched in turn, all stores are left as they were and
    the answer is [null]. *)
Lemma level_get_miss fuel a k s :
  acyclic (heap s) → unlocked_from a (heap s) →
  (a < length (heap s))%nat → (length (heap s) - a ≤ fuel)%nat →
  (∀ c L, c ∈ chain_from fuel (heap s) a → heap s !! c = Some L →
          JsMap.has k (cache L) = false) →
  level_get fuel a k s =
  Returns JNull
    (mkState (heap s) (cacheLevels s)
             (trace s ++ nested (chain_from fuel (heap s) a))).
Proof.
  revert a s. induction fuel as [|fuel IH]; intros a [h cl t];
    simpl; intros Hac Hun Hlt Hfuel Habs; [lia|].
  destruct (lookup_lt_is_Some_2 h a Hlt) as [L Ha].
  assert (Hm : mutex L = false) by (by eapply Hun).
  assert (Hk : JsMap.has k (cache L) = false).
  { eapply Habs; [|done]. apply list_elem_of_here. }
  unfold bind at 1, acquire, with_level. simpl. rewrite Ha, Hm.
  unfold try_finally, with_level, update_level, set_heap, log. simpl.
  rewrite (alter_insert _ _ _ _ Ha).
  rewrite list_lookup_insert_eq by done. simpl. rewrite Hk. simpl.
  rewrite Ha in Habs. simpl in Habs.
  destruct (lowerCache L) as [b|] eqn:Hb; simpl.
  - destruct (Hac a L b Ha Hb) as [Hab Hbl].
    unfold bind at 1. rewrite IH; simpl; rewrite ?length_insert; try lia.
    2:{ by eapply acyclic_insert. }
    2:{ apply unlocked_from_insert; [|done].
        intros c Lc ? ?. eapply (Hun c); [lia|done]. }
    2:{ intros c Lc Hc HLc. rewrite chain_from_insert_below in Hc by done.
        pose proof (chain_from_ge fuel h b Hac) as Hge.
        rewrite Forall_forall in Hge. specialize (Hge c Hc). simpl in Hge.
        rewrite list_lookup_insert_ne in HLc by lia.
        eapply Habs; [|done]. by apply list_elem_of_further. }
    simpl. unfold ret, release, update_level, log, set_heap. simpl.
    rewrite chain_from_insert_below by done.
    rewrite alter_insert_eq by lia.
    rewrite set_mutex_twice, (set_mutex_id false) by done.
    rewrite list_insert_id by done.
    rewrite nested_cons. by rewrite <-!app_assoc.
  - unfold ret, release, update_level, log, set_heap. simpl.
    rewrite alter_insert_eq by lia.
    rewrite set_mutex_twice, (set_mutex_id false) by done.
    rewrite list_insert_id by done.
    by rewrite <-!app_assoc.
Qed.

(** ** No exceptions inside a level *)

Lemma level_put_no_throw fuel a k v s e s' :
  level_put fuel a k v s ≠ Throws e s'.
Proof.
  revert a k v s e s'. induction fuel as [|fuel IH]; intros a k v s e s'; simpl; [done|].
  unfold bind at 1, acquire, with_level.
  destruct (heap s !! a) as [L|]; [|done].
  destruct (mutex L); [done|].
  unfold try_finally, with_level.
  destruct (heap _ !! a) as [L1|]; [|done].
  unfold bind at 1.
  destruct (JsMap.size (cache L1) >=? size L1); [|done].
  destruct (evict L1) as [item L']. unfold bind at 1.
  destruct item as [[ek ev]|]; [|done].
  destruct (lowerCache L') as [b|]; [|done].
  unfold bind at 1.
  destruct (level_put fuel b ek ev _) eqn:E; try done.
  by apply IH in E.
Qed.

Lemma level_get_no_throw fuel a k s e s' :
  level_get fuel a k s ≠ Throws e s'.
Proof.
  revert a s e s'. induction fuel as [|fuel IH]; intros a s e s'; simpl; [done|].
  unfold bind at 1, acquire, with_level.
  destruct (heap s !! a) as [L|]; [|done].
  destruct (mutex L); [done|].
  unfold try_finally, with_level.
  destruct (heap _ !! a) as [L1|]; [|done].
  destruct (negb _); [|done].
  destruct (lowerCache L1) as [b|]; [|done].
  unfold bind at 1.
  destruct (level_get fuel b k _) as [lv s1| | |] eqn:E; try done.
  - destruct (truthy lv); [|done]. unfold bind.
    destruct (level_put fuel a k lv s1) eqn:E2; try done.
    by apply level_put_no_throw in E2.
  - by apply IH in E.
Qed.

Lemma promote_no_throw fuel above k v s e s' :
  promote fuel above k v s ≠ Throws e s'.
Proof.
  revert s. induction above as [|a above IH]; intros s; simpl; [done|].
  unfold bind. destruct (level_put fuel a k v s) eqn:E; try done.
  by apply level_put_no_throw in E.
Qed.

Lemma mlc_put_throws fuel k v s e s' :
  mlc_put fuel k v s = Throws e s' → e = TypeError ∧ cacheLevels s = [] ∧ s' = s.
Proof.
  unfold mlc_put. destruct (cacheLevels s) as [|a rest]; [by intros [= <- <-]|].
  intros E. by apply level_put_no_throw in E.
Qed.

Lemma get_loop_throws fuel above rest k s e s' :
  get_loop fuel above rest k s = Throws e s' → e = TypeError.
Proof.
  revert above s. induction rest as [|a rest IH]; intros above s; simpl.
  - unfold fetchFromMainMemory, bind.
    destruct (mlc_put _ _ _ s) eqn:E; try done.
    intros [= <- <-]. by apply mlc_put_throws in E as [? _].
  - unfold bind at 1. destruct (level_get fuel a k s) as [v s1| | |] eqn:E; try done.
    + case_decide; [apply IH|].
      unfold bind. destruct (promote _ _ _ _ _) eqn:E2; try done.
      by apply promote_no_throw in E2.
    + by apply level_get_no_throw in E.
Qed.

(** ** Validation in [addCacheLevel] and [removeCacheLevel] *)

Lemma policy_check p :
  negb (String.eqb p "LRU") && negb (String.eqb p "LFU") = false ↔ valid_policy p.
Proof.
  unfold valid_policy.
  destruct (String.eqb_spec p "LRU"), (String.eqb_spec p "LFU"); simpl;
    split; intros; try done; auto. by destruct H.
Qed.

Lemma addCacheLevel_returns sz p s :
  valid_policy p →
  addCacheLevel sz p s =
  Returns JUndefined
    (mkState
       (match last (cacheLevels s) with
        | Some q => alter (setLowerCache (Some (length (heap s)))) q
                      (heap s ++ [new_level sz p])
        | None => heap s ++ [new_level sz p]
        end)
       (cacheLevels s ++ [length (heap s)]) (trace s)).
Proof. intros Hp. unfold addCacheLevel. by rewrite (proj2 (policy_check p) Hp). Qed.

Lemma addCacheLevel_throws sz p s :
  ¬ valid_policy p →
  addCacheLevel sz p s = Throws (Error "Eviction policy must be LRU or LFU") s.
Proof.
  intros Hp. unfold addCacheLevel.
  destruct (negb _ && negb _) eqn:E; [done|]. by apply policy_check in E.
Qed.

Lemma index_check i s :
  (0 <=? i) && (i <? Z.of_nat (length (cacheLevels s))) = true ↔ valid_index i s.
Proof. unfold valid_index. rewrite andb_true_iff. lia. Qed.

Lemma removeCacheLevel_throws i s :
  ¬ valid_index i s →
  removeCacheLevel i s = Throws (Error "Invalid cache level index") s.
Proof.
  intros Hi. unfold removeCacheLevel.
  destruct (_ && _) eqn:E; [|done]. by apply index_check in E.
Qed.

Lemma removeCacheLevel_returns i s :
  valid_index i s →
  removeCacheLevel i s =
  Returns JUndefined
    (mkState
       (relink (delete (Z.to_nat i) (cacheLevels s)) (Z.to_nat i)
          (length (delete (Z.to_nat i) (cacheLevels s)) - Z.to_nat i) (heap s))
       (delete (Z.to_nat i) (cacheLevels s)) (trace s)).
Proof. intros Hi. unfold removeCacheLevel. by rewrite (proj2 (index_check i s) Hi). Qed.

(** ** What a completed [put] leaves behind *)

Lemma cache_store_entry k v L :
  cache (store_entry k v L) = JsMap.set k v (cache L).
Proof. unfold store_entry; simpl. by case_match. Qed.

Lemma cache_put_local k v L :
  cache (put_local k v L) =
  JsMap.set k v (cache (if at_capacity L then (evict L).2 else L)).
Proof. apply cache_store_entry. Qed.

Lemma entries_lookup a s L : heap s !! a = Some L → entries a s = cache L.
Proof. unfold entries. by intros ->. Qed.

Lemma counters_lookup a s L : heap s !! a = Some L → counters a s = accessCount L.
Proof. unfold counters. by intros ->. Qed.

Lemma level_put_spec fuel a k v s L :
  acyclic (heap s) → unlocked_from a (heap s) → heap s !! a = Some L →
  (length (heap s) - a ≤ fuel)%nat →
  ∃ s' l,
    level_put fuel a k v s = Returns JUndefined s' ∧
    heap s' !! a = Some (put_local k v L) ∧
    frame a (heap s) (heap s') ∧
    cacheLevels s' = cacheLevels s ∧
    trace s' = trace s ++ nested (a :: l) ∧
    StronglySorted lt (a :: l).
Proof.
  intros Hac Hun Ha Hfuel.
  assert (Hlt : (a < length (heap s))%nat) by (by eapply lookup_lt_Some).
  destruct fuel as [|fuel]; [lia|].
  pose proof (cascade_head fuel a k v (heap s) L Ha) as Hhd.
  pose proof (cascade_path (S fuel) a k v (heap s) Hac) as [_ Hsorted].
  destruct (cascade (S fuel) a k v (heap s)).2 as [|a' l] eqn:Hl; [done|].
  simpl in Hhd. simplify_eq.
  eexists _, l. split; [by apply level_put_cascade|]. cbn [heap cacheLevels trace].
  split_and!; [by apply cascade_lookup_top|by apply cascade_frame|done| |done].
  by rewrite Hl.
Qed.

Lemma lookup_alter_setLowerCache {A} (f : CacheLevel → A) lower q (h : list CacheLevel) i :
  (∀ L, f (setLowerCache lower L) = f L) →
  f <$> alter (setLowerCache lower) q h !! i = f <$> h !! i.
Proof.
  intros Hf. destruct (decide (q = i)) as [->|].
  - rewrite list_lookup_alter_eq. destruct (h !! i); simpl; [|done]. by rewrite Hf.
  - by rewrite list_lookup_alter_ne.
Qed.

(** ** The eviction policies *)

Lemma evict_LRU L k0 v0 rest :
  evictionPolicy L = "LRU"%string → cache L = (k0, v0) :: rest →
  evict L = (Some (k0, v0), set_cache rest L).
Proof.
  intros Hp Hc. unfold evict. rewrite Hp, Hc. simpl.
  unfold get_or_undefined. simpl. rewrite !decide_True by done. done.
Qed.

Lemma lfu_scan_spec m least minf :
  match (lfu_scan m least minf).2 with
  | None => m = [] ∧ minf = None ∧ (lfu_scan m least minf).1 = least
  | Some fq =>
      (∀ k' f', (k', f') ∈ m → fq ≤ f') ∧
      (∀ f0, minf = Some f0 → fq ≤ f0) ∧
      (((lfu_scan m least minf).1, fq) ∈ m ∨
       (minf = Some fq ∧ (lfu_scan m least minf).1 = least))
  end.
Proof.
  revert least minf. induction m as [|[key freq] m IH]; intros least minf; simpl.
  - destruct minf as [f0|]; [|done].
    split_and!; [by intros ?? ?%elem_of_nil|by intros ? [= ->]|by right].
  - assert (Hstep : ∀ least' f1,
      (∀ f0, minf = Some f0 → f1 ≤ f0) → f1 ≤ freq →
      ((least', f1) = (key, freq) ∨ (minf = Some f1 ∧ least' = least)) →
      match (lfu_scan m least' (Some f1)).2 with
      | None => (key, freq) :: m = [] ∧ minf = None ∧
                (lfu_scan m least' (Some f1)).1 = least
      | Some fq =>
          (∀ k' f', (k', f') ∈ (key, freq) :: m → fq ≤ f') ∧
          (∀ f0, minf = Some f0 → fq ≤ f0) ∧
          (((lfu_scan m least' (Some f1)).1, fq) ∈ (key, freq) :: m ∨
           (minf = Some fq ∧ (lfu_scan m least' (Some f1)).1 = least))
      end).
    { intros least' f1 Hmin Hle Hor. specialize (IH least' (Some f1)).
      destruct (lfu_scan m least' (Some f1)) as [k [fq|]]; simpl in *.
      - destruct IH as (Hall & Hf1 & Hin). specialize (Hf1 f1 eq_refl).
        split_and!.
        + intros k' f' [[= -> ->]|?]%elem_of_cons; [lia|by eapply Hall].
        + intros f0 Hf0. specialize (Hmin f0 Hf0). lia.
        + destruct Hin as [Hin|[[= ->] ->]]; [left; by apply list_elem_of_further|].
          destruct Hor as [[= -> ->]|[-> ->]]; [left; apply list_elem_of_here|by right].
      - by destruct IH as (_ & ? & _). }
    destruct minf as [f0|].
    + destruct (freq <? f0) eqn:E.
      * apply Hstep; [intros ? [= <-]; lia|lia|by left].
      * apply Hstep; [by intros ? [= <-]|lia|by right].
    + apply Hstep; [done|lia|by left].
Qed.

(** On an LFU level whose scan ends on a truthy key, [evict] removes that
    key, and no counter is smaller than its counter. *)
Lemma evict_LFU L :
  evictionPolicy L = "LFU"%string →
  let victim := (lfu_scan (accessCount L) JNull None).1 in
  truthy victim = true →
  evict L = (Some (victim, get_or_undefined victim (cache L)),
             set_accessCount (JsMap.delete victim (accessCount L))
               (set_cache (JsMap.delete victim (cache L)) L)) ∧
  ∃ fq, (victim, fq) ∈ accessCount L ∧
        ∀ k' f', (k', f') ∈ accessCount L → fq ≤ f'.
Proof.
  intros Hp victim Ht. split.
  - unfold evict. rewrite Hp. simpl. fold victim. by rewrite Ht.
  - pose proof (lfu_scan_spec (accessCount L) JNull None) as H. fold victim in H.
    destruct (lfu_scan (accessCount L) JNull None).2 as [fq|].
    + destruct H as (Hall & _ & [Hin|[? _]]); [|done]. by exists fq.
    + destruct H as (_ & _ & Hv). by rewrite Hv in Ht.
Qed.

(** ** Locks held along a nested trace *)

Lemma held_after_app held t1 t2 :
  held_after held (t1 ++ t2) = held_after (held_after held t1) t2.
Proof.
  revert held. induction t1 as [|[a|a] t1 IH]; intros held; simpl; by rewrite ?IH.
Qed.

Lemma max_held_app held t1 t2 :
  max_held held (t1 ++ t2) =
  (max_held held t1 `max` max_held (held_after held t1) t2)%nat.
Proof.
  revert held. induction t1 as [|e t1 IH]; intros held; simpl.
  - destruct t2; simpl; lia.
  - rewrite IH. destruct e; simpl; lia.
Qed.

Lemma filter_ne_absent (a : nat) (held : list nat) :
  a ∉ held → filter (λ b, b ≠ a) held = held.
Proof.
  induction held as [|x held IH]; [done|].
  intros [? ?]%not_elem_of_cons. rewrite filter_cons_True by done. by rewrite IH.
Qed.

Lemma nested_held (l held : list nat) :
  NoDup l → (∀ x, x ∈ l → x ∉ held) →
  held_after held (nested l) = held ∧
  max_held held (nested l) = (length held + length l)%nat.
Proof.
  revert held. induction l as [|a l IH]; intros held Hnd Hdis.
  - unfold nested. simpl. split; [done|lia].
  - apply NoDup_cons in Hnd as [Ha Hnd].
    destruct (IH (a :: held) Hnd) as [IH1 IH2].
    { intros x Hx [->|?]%elem_of_cons; [done|].
      eapply Hdis; [by apply list_elem_of_further|done]. }
    assert (Hf : filter (λ b, b ≠ a) (a :: held) = held).
    { rewrite filter_cons_False by (intros ?; done).
      apply filter_ne_absent, Hdis, list_elem_of_here. }
    rewrite nested_cons. simpl. rewrite held_after_app, max_held_app, IH1, IH2.
    simpl. rewrite Hf. split; [done|lia].
Qed.

Lemma sorted_lt_NoDup (l : list nat) : StronglySorted lt l → NoDup l.
Proof.
  induction 1 as [|a l Hs IH Hall]; constructor; [|done].
  intros Hin. rewrite Forall_forall in Hall. specialize (Hall a Hin). lia.
Qed.

(** ** [CacheLevel.get] in general: it answers or it blocks *)

Lemma level_get_frame fuel a k s :
  acyclic (heap s) → unlocked_from a (heap s) →
  (a < length (heap s))%nat → (length (heap s) - a ≤ fuel)%nat →
  match level_get fuel a k s with
  | Returns _ s' => frame a (heap s) (heap s') ∧ cacheLevels s' = cacheLevels s
  | Blocks _ => True
  | _ => False
  end.
Proof.
  revert a s. induction fuel as [|fuel IH]; intros a [h cl t];
    simpl; intros Hac Hun Hlt Hfuel; [lia|].
  destruct (lookup_lt_is_Some_2 h a Hlt) as [L Ha].
  assert (Hm : mutex L = false) by (by eapply Hun).
  destruct (JsMap.has k (cache L)) eqn:Hk.
  { pose proof (level_get_hit fuel a k (mkState h cl t) L Ha Hm Hk) as Hhit.
    simpl in Hhit. rewrite Hhit. simpl. split; [|done].
    eapply frame_insert; [done..|apply touch_shape]. }
  unfold bind at 1, acquire, with_level. simpl. rewrite Ha, Hm.
  unfold try_finally, with_level, update_level, set_heap, log. simpl.
  rewrite (alter_insert _ _ _ _ Ha).
  rewrite list_lookup_insert_eq by done. simpl. rewrite Hk. simpl.
  destruct (lowerCache L) as [b|] eqn:Hb; simpl.
  - destruct (Hac a L b Ha Hb) as [Hab Hbl].
    unfold bind at 1.
    specialize (IH b (mkState (<[a:=set_mutex true L]> h) cl (t ++ [Acquire a]))).
    simpl in IH. rewrite length_insert in IH.
    destruct (level_get fuel b k _) as [lv s2| |s2|] eqn:Hget.
    + destruct IH as [Hfr Hcl]; [by eapply acyclic_insert| |lia|lia|].
      { apply unlocked_from_insert; [|done].
        intros c Lc ? ?. eapply (Hun c); [lia|done]. }
      assert (Ha2 : heap s2 !! a = Some (set_mutex true L)).
      { eapply frame_lookup_lt; [done..|]. by apply list_lookup_insert_eq. }
      destruct (truthy lv).
      * destruct fuel as [|fuel]; [lia|]. simpl.
        unfold bind at 1. unfold bind at 1, acquire, with_level. by rewrite Ha2.
      * unfold ret, release, update_level, log, set_heap. simpl.
        rewrite (alter_insert _ _ _ _ Ha2), set_mutex_twice, (set_mutex_id false) by done.
        split; [|done]. destruct Hfr as [Hl Hfr]. rewrite length_insert in Hl.
        split; [by rewrite length_insert|].
        intros c Lc Hc. destruct (decide (c = a)) as [->|Hne].
        -- exists L. rewrite list_lookup_insert_eq by lia. by simplify_eq.
        -- rewrite list_lookup_insert_ne by done.
           destruct (Hfr c Lc) as (L' & ? & ? & He);
             [by rewrite list_lookup_insert_ne|].
           exists L'. split_and!; [done..|]. intros. apply He. lia.
    + by apply level_get_no_throw in Hget.
    + done.
    + apply IH; [by eapply acyclic_insert| |lia|lia].
      apply unlocked_from_insert; [|done].
      intros c Lc ? ?. eapply (Hun c); [lia|done].
  - unfold ret, release, update_level, log, set_heap. simpl.
    rewrite alter_insert_eq by lia.
    rewrite set_mutex_twice, (set_mutex_id false) by done.
    rewrite list_insert_id by done. split; [apply frame_refl|done].
Qed.

(** ** The self-deadlock of [get]

    A level that misses while its lower level holds the key under a truthy
    value asks for its own mutex while holding it. *)
Lemma level_get_self_deadlock fuel a b k s L Lb :
  heap s !! a = Some L → mutex L = false →
  JsMap.has k (cache L) = false → lowerCache L = Some b → a ≠ b →
  heap s !! b = Some Lb → mutex Lb = false →
  JsMap.has k (cache Lb) = true →
  truthy (get_or_undefined k (cache Lb)) = true →
  ∃ s', level_get (S (S fuel)) a k s = Blocks s' ∧
        mutex <$> heap s' !! a = Some true ∧
        trace s' = trace s ++ [Acquire a; Acquire b; Release b].
Proof.
  destruct s as [h cl t]. cbn [heap cacheLevels trace].
  intros Ha Hm Hk Hlow Hab Hb Hmb Hkb Htr.
  assert (Hlt : (a < length h)%nat) by (by eapply lookup_lt_Some).
  assert (Hltb : (b < length h)%nat) by (by eapply lookup_lt_Some).
  remember (S fuel) as n eqn:Hn. simpl level_get. subst n.
  unfold bind at 1, acquire, with_level. cbn [heap]. rewrite Ha, Hm.
  unfold try_finally, with_level, update_level, set_heap, log. cbn [heap cacheLevels trace].
  rewrite (alter_insert _ _ _ _ Ha), list_lookup_insert_eq by done.
  cbn [set_mutex cache lowerCache]. rewrite Hk, Hlow. cbn [negb].
  unfold bind at 1.
  rewrite (level_get_hit fuel b k _ Lb);
    [|by cbn [heap]; rewrite list_lookup_insert_ne|done..].
  cbn [heap cacheLevels trace]. rewrite Htr.
  unfold bind at 1. simpl level_put.
  unfold bind at 1, acquire, with_level. cbn [heap].
  rewrite list_lookup_insert_ne, list_lookup_insert_eq by done. cbn [mutex].
  eexists. split; [done|]. cbn [heap trace].
  rewrite list_lookup_insert_ne, list_lookup_insert_eq by done.
  split; [done|]. by rewrite <-app_assoc.
Qed.

(** ** Well-formedness is kept by every call that settles *)

Lemma wf_initial : wf initial.
Proof.
  split_and!; simpl; [by intros ? ? ? ?|by intros ? ? ? ?|constructor|by intros ? ? ? ? ? ?].
Qed.

Lemma wf_frame s s' :
  wf s → frame 0 (heap s) (heap s') → cacheLevels s' = cacheLevels s → wf s'.
Proof.
  intros (Hac & Hq & Hv & Hi) Hfr Hcl. unfold wf. rewrite Hcl.
  split_and!; [by eapply frame_acyclic|by eapply frame_unlocked| |done].
  destruct Hfr as [-> _]. done.
Qed.

Lemma level_put_wf fuel a k v s :
  wf s → (a < length (heap s))%nat → (length (heap s) ≤ fuel)%nat →
  ∃ s', level_put fuel a k v s = Returns JUndefined s' ∧ wf s' ∧
        length (heap s') = length (heap s).
Proof.
  intros Hwf Hlt Hfuel. pose proof Hwf as (Hac & Hq & _).
  destruct (lookup_lt_is_Some_2 _ _ Hlt) as [L Ha].
  destruct (level_put_spec fuel a k v s L) as (s' & l & Hput & _ & Hfr & Hcl & _);
    [done| |done|lia|].
  { intros b Lb _ Hb. eapply (Hq b); [lia|done]. }
  exists s'. split_and!; [done| |by destruct Hfr].
  eapply wf_frame; [done| |done]. eapply frame_weaken; [|done]. lia.
Qed.

Lemma promote_wf fuel above k v s :
  wf s → Forall (fun a => (a < length (heap s))%nat) above →
  (length (heap s) ≤ fuel)%nat →
  ∃ s', promote fuel above k v s = Returns tt s' ∧ wf s' ∧
        length (heap s') = length (heap s).
Proof.
  revert s. induction above as [|a above IH]; intros s Hwf Hab Hfuel; simpl.
  { by exists s. }
  apply Forall_cons in Hab as [Ha Hab].
  destruct (level_put_wf fuel a k v s) as (s1 & Hput & Hwf1 & Hl1); [done..|].
  unfold bind. rewrite Hput.
  destruct (IH s1) as (s2 & Hpr & Hwf2 & Hl2); [done|by rewrite Hl1|lia|].
  exists s2. split_and!; [done..|congruence].
Qed.

Lemma mlc_put_settles fuel k v s :
  wf s → (length (heap s) ≤ fuel)%nat →
  match mlc_put fuel k v s with
  | Returns _ s' => wf s' ∧ length (heap s') = length (heap s)
  | Throws e s' => s' = s ∧ cacheLevels s = []
  | _ => False
  end.
Proof.
  intros Hwf Hfuel. unfold mlc_put.
  destruct (cacheLevels s) as [|a rest] eqn:Hcl; [done|].
  pose proof Hwf as (_ & _ & Hv & _). rewrite Hcl in Hv.
  apply Forall_cons in Hv as [Ha _].
  by destruct (level_put_wf fuel a k v s) as (s' & -> & ? & ?).
Qed.

Lemma get_loop_settles fuel above rest k s :
  wf s → (length (heap s) ≤ fuel)%nat →
  Forall (fun a => (a < length (heap s))%nat) above →
  Forall (fun a => (a < length (heap s))%nat) rest →
  match get_loop fuel above rest k s with
  | Returns _ s' | Throws _ s' => wf s' ∧ length (heap s') = length (heap s)
  | Blocks _ => True
  | Stuck => False
  end.
Proof.
  revert above s. induction rest as [|a rest IH]; intros above s Hwf Hfuel Hab Hre;
    simpl.
  - unfold fetchFromMainMemory, bind.
    pose proof (mlc_put_settles fuel k (JString ("data for " +:+ toString k)) s Hwf Hfuel) as H.
    destruct (mlc_put _ _ _ s); try done. by destruct H as [-> _].
  - apply Forall_cons in Hre as [Ha Hre]. pose proof Hwf as (Hac & Hq & _).
    assert (Hun : unlocked_from a (heap s)).
    { intros b Lb _ Hb. eapply (Hq b); [lia|done]. }
    pose proof (level_get_frame fuel a k s Hac Hun Ha ltac:(lia)) as Hget.
    unfold bind at 1.
    destruct (level_get fuel a k s) as [v s1| |s1|]; [|done..].
    destruct Hget as [Hfr Hcl].
    assert (Hwf1 : wf s1).
    { eapply wf_frame; [done| |done]. eapply frame_weaken; [|done]. lia. }
    assert (Hl : length (heap s1) = length (heap s)) by (by destruct Hfr).
    case_decide.
    + specialize (IH (a :: above) s1). rewrite Hl in IH.
      destruct (get_loop fuel (a :: above) rest k s1); auto.
    + destruct (promote_wf fuel above k v s1) as (s2 & Hpr & Hwf2 & Hl2);
        [done|by rewrite Hl|lia|].
      unfold bind. rewrite Hpr. split; [done|congruence].
Qed.

(** A call of [MultiLevelCache.get] or [put] on a well-formed chain returns,
    throws or blocks; it never runs out of fuel [length (heap s)], and
    when it settles the chain is well formed again. *)
Lemma mlc_get_settles fuel k s :
  wf s → (length (heap s) ≤ fuel)%nat →
  match mlc_get fuel k s with
  | Returns _ s' | Throws _ s' => wf s' ∧ length (heap s') = length (heap s)
  | Blocks _ => True
  | Stuck => False
  end.
Proof.
  intros Hwf Hfuel. apply get_loop_settles; [done..|constructor|apply Hwf].
Qed.

(** ** Topology changes *)

Lemma acyclic_alter_lower h a target :
  acyclic h → (∀ b, target = Some b → (a < b < length h)%nat) →
  acyclic (alter (setLowerCache target) a h).
Proof.
  intros Hac Ht c L b Hc Hb. rewrite length_alter.
  destruct (decide (a = c)) as [->|].
  - rewrite list_lookup_alter_eq in Hc.
    destruct (h !! c) as [L0|] eqn:E; simplify_eq/=. by apply Ht.
  - rewrite list_lookup_alter_ne in Hc by done. by eapply Hac.
Qed.

Lemma quiescent_alter_lower h a target :
  quiescent h → quiescent (alter (setLowerCache target) a h).
Proof.
  intros Hq c L Hle Hc. destruct (decide (a = c)) as [->|].
  - rewrite list_lookup_alter_eq in Hc.
    destruct (h !! c) as [L0|] eqn:E; simplify_eq/=. by eapply Hq.
  - rewrite list_lookup_alter_ne in Hc by done. by eapply Hq.
Qed.

Lemma addCacheLevel_wf sz p s :
  wf s → valid_policy p →
  ∃ s', addCacheLevel sz p s = Returns JUndefined s' ∧ wf s' ∧
        length (heap s') = S (length (heap s)).
Proof.
  intros (Hac & Hq & Hv & Hi) Hp. eexists. split; [by apply addCacheLevel_returns|].
  assert (Hac' : acyclic (heap s ++ [new_level sz p])).
  { intros c L b Hc Hb. rewrite length_app. simpl.
    destruct (decide (c < length (heap s))%nat).
    - rewrite lookup_app_l in Hc by done. pose proof (Hac c L b Hc Hb). lia.
    - rewrite lookup_app_r in Hc by lia.
      destruct (c - length (heap s))%nat; simpl in Hc; by simplify_eq. }
  assert (Hq' : quiescent (heap s ++ [new_level sz p])).
  { intros c L _ Hc. destruct (decide (c < length (heap s))%nat).
    - rewrite lookup_app_l in Hc by done. by eapply Hq; [|done]; lia.
    - rewrite lookup_app_r in Hc by lia.
      destruct (c - length (heap s))%nat; simpl in Hc; by simplify_eq. }
  assert (Hlen : length (match last (cacheLevels s) with
                         | Some q => alter (setLowerCache (Some (length (heap s)))) q
                                       (heap s ++ [new_level sz p])
                         | None => heap s ++ [new_level sz p]
                         end) = S (length (heap s))).
  { destruct (last (cacheLevels s)); rewrite ?length_alter, length_app; simpl; lia. }
  unfold wf. cbn [heap cacheLevels trace]. rewrite Hlen. split_and!; [..|done].
  - destruct (last (cacheLevels s)) as [q|] eqn:Hlast; [|done].
    apply acyclic_alter_lower; [done|]. intros b [= <-].
    rewrite length_app. simpl. rewrite last_lookup in Hlast.
    rewrite Forall_lookup in Hv. specialize (Hv _ _ Hlast). simpl in Hv. lia.
  - destruct (last (cacheLevels s)); [by apply quiescent_alter_lower|done].
  - apply Forall_app. split; [|by repeat constructor].
    eapply Forall_impl; [done|]. simpl. lia.
  - intros i j a b Hij Hia Hjb.
    assert (i < length (cacheLevels s))%nat.
    { apply lookup_lt_Some in Hjb. rewrite length_app in Hjb. simpl in Hjb. lia. }
    rewrite lookup_app_l in Hia by done.
    destruct (decide (j < length (cacheLevels s))%nat).
    + rewrite lookup_app_l in Hjb by done. by eapply (Hi i j).
    + rewrite lookup_app_r in Hjb by lia.
      destruct (j - length (cacheLevels s))%nat; simpl in Hjb; simplify_eq.
      rewrite Forall_lookup in Hv. by apply (Hv _ _ Hia).
Qed.

Lemma relink_wf levels i n h :
  increasing levels → Forall (fun a => (a < length h)%nat) levels →
  acyclic h → quiescent h →
  acyclic (relink levels i n h) ∧ quiescent (relink levels i n h) ∧
  length (relink levels i n h) = length h.
Proof.
  intros Hi Hv. revert i h Hv. induction n as [|n IH]; intros i h Hv Hac Hq; simpl.
  { done. }
  destruct (levels !! i) as [a|] eqn:Ha; [|by apply IH].
  destruct (IH (S i)
    (alter (setLowerCache (if decide (i < length levels - 1)%nat
                           then levels !! S i else None)) a h))
    as (? & ? & Hl).
  - by rewrite length_alter.
  - apply acyclic_alter_lower; [done|]. intros b Hb.
    case_decide; [|done]. rewrite Forall_lookup in Hv.
    split; [by eapply (Hi i (S i)); [lia|..]|by apply (Hv _ _ Hb)].
  - by apply quiescent_alter_lower.
  - split_and!; [done..|]. by rewrite Hl, length_alter.
Qed.

Lemma removeCacheLevel_wf i s :
  wf s → valid_index i s →
  ∃ s', removeCacheLevel i s = Returns JUndefined s' ∧ wf s' ∧
        length (heap s') = length (heap s).
Proof.
  intros (Hac & Hq & Hv & Hi) Hidx.
  eexists. split; [by apply removeCacheLevel_returns|].
  assert (Hv' : Forall (fun a => (a < length (heap s))%nat)
                  (delete (Z.to_nat i) (cacheLevels s))).
  { by apply Forall_delete. }
  assert (Hi' : increasing (delete (Z.to_nat i) (cacheLevels s))).
  { intros j1 j2 a b Hj H1 H2.
    destruct (decide (j1 < Z.to_nat i)%nat), (decide (j2 < Z.to_nat i)%nat);
      rewrite ?list_lookup_delete_lt in H1 by lia;
      rewrite ?list_lookup_delete_lt in H2 by lia;
      rewrite ?list_lookup_delete_ge in H1 by lia;
      rewrite ?list_lookup_delete_ge in H2 by lia;
      (eapply Hi; [|done..]); lia. }
  destruct (relink_wf (delete (Z.to_nat i) (cacheLevels s)) (Z.to_nat i)
              (length (delete (Z.to_nat i) (cacheLevels s)) - Z.to_nat i) (heap s))
    as (? & ? & Hl); [done..|].
  unfold wf. cbn [heap cacheLevels trace]. rewrite Hl. done.
Qed.

(** Every command that settles on a well-formed state leaves a
    well-formed state, with at most one level more on the heap; and fuel
    [length (heap s)] is always enough. *)
Lemma dispatch_settles fuel c s :
  wf s → (length (heap s) ≤ fuel)%nat →
  match dispatch fuel c s with
  | Returns _ s' | Throws _ s' =>
      wf s' ∧ (length (heap s') ≤ S (length (heap s)))%nat
  | Blocks _ => True
  | Stuck => False
  end.
Proof.
  intros Hwf Hfuel. destruct c as [sz p|k|k v|i]; simpl.
  - destruct (decide (valid_policy p)) as [Hp|Hp].
    + destruct (addCacheLevel_wf sz p s Hwf Hp) as (s' & -> & ? & ->). auto.
    + rewrite addCacheLevel_throws by done. auto.
  - pose proof (mlc_get_settles fuel k s Hwf Hfuel) as H.
    destruct (mlc_get fuel k s); try done; destruct H as [? ->]; auto.
  - pose proof (mlc_put_settles fuel k v s Hwf Hfuel) as H.
    destruct (mlc_put fuel k v s); try done.
    + destruct H as [? ->]. auto.
    + destruct H as [-> _]. auto.
  - destruct (decide (valid_index i s)) as [Hi|Hi].
    + destruct (removeCacheLevel_wf i s Hwf Hi) as (s' & -> & ? & ->). auto.
    + rewrite removeCacheLevel_throws by done. auto.
Qed.

(** Every state that the command loop reaches from the empty cache is well
    formed. *)
Lemma session_wf fuel cmds s s' :
  wf s → (length (heap s) + length cmds ≤ fuel)%nat →
  session fuel cmds s = Some s' → wf s'.
Proof.
  revert s. induction cmds as [|c cmds IH]; intros s Hwf Hfuel; simpl.
  { by intros [= <-]. }
  simpl in Hfuel.
  pose proof (dispatch_settles fuel c s Hwf ltac:(lia)) as H.
  destruct (dispatch fuel c s) as [v s1|e s1|s1|]; try done;
    destruct H as [Hwf1 Hl]; apply IH; (done || lia).
Qed.

(** ** The capacity bound, where it holds *)

Lemma put_local_capacity_LRU k v L :
  evictionPolicy L = "LRU"%string → 0 < size L →
  JsMap.size (cache L) ≤ size L →
  JsMap.size (cache (put_local k v L)) ≤ size L.
Proof.
  intros Hp Hpos Hle. rewrite cache_put_local. unfold at_capacity, JsMap.size in *.
  destruct (Z.of_nat (length (cache L)) >=? size L) eqn:E;
    rewrite Z.geb_leb in E; [apply Z.leb_le in E|apply Z.leb_gt in E].
  - destruct (cache L) as [|[k0 v0] older] eqn:Hc; simpl in *; [lia|].
    rewrite (evict_LRU L k0 v0 older) by done. simpl.
    pose proof (length_set_le k v older). lia.
  - pose proof (length_set_le k v (cache L)). lia.
Qed.

Lemma put_local_capacity_LFU k v L :
  evictionPolicy L = "LFU"%string →
  let victim := (lfu_scan (accessCount L) JNull None).1 in
  truthy victim = true → JsMap.has victim (cache L) = true →
  JsMap.size (cache L) ≤ size L →
  JsMap.size (cache (put_local k v L)) ≤ size L.
Proof.
  intros Hp victim Ht Hin Hle. rewrite cache_put_local.
  unfold at_capacity, JsMap.size in *.
  destruct (Z.of_nat (length (cache L)) >=? size L) eqn:E;
    rewrite Z.geb_leb in E; [apply Z.leb_le in E|apply Z.leb_gt in E].
  - destruct (evict_LFU L Hp Ht) as [-> _]. simpl. fold victim.
    pose proof (length_delete_has victim (cache L) Hin).
    pose proof (length_set_le k v (JsMap.delete victim (cache L))). lia.
  - pose proof (length_set_le k v (cache L)). lia.
Qed.

(** ** [MultiLevelCache.get] when every level misses *)

Lemma get_loop_all_miss fuel above rest k s :
  wf s → (length (heap s) ≤ fuel)%nat →
  Forall (fun a => (a < length (heap s))%nat) rest →
  (∀ c L, heap s !! c = Some L → JsMap.has k (cache L) = false) →
  ∃ t, get_loop fuel above rest k s =
       fetchFromMainMemory fuel k (mkState (heap s) (cacheLevels s) t).
Proof.
  revert above s. induction rest as [|a rest IH]; intros above [h cl t];
    simpl; intros Hwf Hfuel Hre Habs.
  { by exists t. }
  apply Forall_cons in Hre as [Ha Hre]. pose proof Hwf as (Hac & Hq & _).
  unfold bind at 1. rewrite level_get_miss; simpl; [|done| |done|lia|by eauto].
  2:{ intros b Lb _ Hb. eapply (Hq b); [lia|done]. }
  destruct (IH (a :: above) (mkState h cl (t ++ nested (chain_from fuel h a))))
    as [t' Ht']; [done..|].
  by exists t'.
Qed.

(** On a chain with at least one level, a key that no level holds is
    fetched from main memory and stored in the top level. *)
Lemma mlc_get_all_miss fuel k s a rest :
  wf s → cacheLevels s = a :: rest → (length (heap s) ≤ fuel)%nat →
  (∀ c L, heap s !! c = Some L → JsMap.has k (cache L) = false) →
  ∃ s', mlc_get fuel k s = Returns (JString ("data for " +:+ toString k)) s' ∧
        JsMap.get k (entries a s') = Some (JString ("data for " +:+ toString k)) ∧
        wf s'.
Proof.
  intros Hwf Hcl Hfuel Habs. pose proof Hwf as (Hac & Hq & Hv & Hi).
  destruct (get_loop_all_miss fuel [] (cacheLevels s) k s) as [t Ht]; [done..|].
  unfold mlc_get. rewrite Ht. unfold fetchFromMainMemory, bind, mlc_put.
  cbn [cacheLevels]. rewrite Hcl.
  rewrite Hcl in Hv. apply Forall_cons in Hv as [Ha _].
  destruct (lookup_lt_is_Some_2 _ _ Ha) as [L HL].
  set (s0 := mkState (heap s) (a :: rest) t).
  assert (Hwf0 : wf s0) by (unfold wf, s0; simpl; by rewrite <-Hcl).
  destruct (level_put_spec fuel a k (JString ("data for " +:+ toString k)) s0 L)
    as (s' & l & Hput & Ha' & Hfr & Hcl' & _); [done| |done|simpl; lia|].
  { intros b Lb _ Hb. eapply (Hq b); [lia|done]. }
  rewrite Hput. exists s'. split_and!; [done| |].
  - rewrite (entries_lookup _ _ _ Ha'), cache_put_local. apply get_set_eq.
  - eapply wf_frame; [exact Hwf0| |done]. eapply frame_weaken; [|done]. lia.
Qed.

(** ** [MultiLevelCache.get] when the top level hits *)

Lemma mlc_get_top_hit fuel k s a rest L :
  cacheLevels s = a :: rest → heap s !! a = Some L → mutex L = false →
  JsMap.has k (cache L) = true → get_or_undefined k (cache L) ≠ JNull →
  mlc_get (S fuel) k s =
  Returns (get_or_undefined k (cache L))
    (mkState (<[a := touch k L]> (heap s)) (cacheLevels s)
             (trace s ++ [Acquire a; Release a])).
Proof.
  intros Hcl Ha Hm Hk Hv. unfold mlc_get. rewrite Hcl.
  cbn [get_loop]. unfold bind at 1.
  rewrite (level_get_hit fuel a k s L) by done.
  rewrite decide_False by done. by rewrite Hcl.
Qed.

(** ** [removeCacheLevel] leaves the predecessor's link as it was *)

Lemma relink_lookup_other levels i n h c :
  (∀ j, (i ≤ j)%nat → levels !! j ≠ Some c) →
  relink levels i n h !! c = h !! c.
Proof.
  revert i h. induction n as [|n IH]; intros i h Hc; simpl; [done|].
  rewrite IH by (intros j ?; apply Hc; lia).
  destruct (levels !! i) as [a|] eqn:Ha; [|done].
  apply list_lookup_alter_ne. intros ->. by apply (Hc i).
Qed.

(** On a well-formed, linked chain, removing any level but the first
    breaks the link invariant: the level before the removed one still
    points to the removed level. *)
Lemma removeCacheLevel_breaks_link i s p r :
  wf s → linked s → 1 ≤ i →
  cacheLevels s !! (Z.to_nat i - 1)%nat = Some p →
  cacheLevels s !! Z.to_nat i = Some r →
  ∃ s', removeCacheLevel i s = Returns JUndefined s' ∧
        cacheLevels s' !! (Z.to_nat i - 1)%nat = Some p ∧
        (r ∉ cacheLevels s') ∧
        lower_of p s' = Some r ∧
        ¬ linked s'.
Proof.
  intros (Hac & Hq & Hv & Hinc) Hlk Hi Hp Hr.
  assert (Hidx : valid_index i s).
  { apply lookup_lt_Some in Hr. unfold valid_index. lia. }
  set (n := Z.to_nat i) in *.
  assert (Hn : (1 ≤ n)%nat) by lia.
  eexists. split; [by apply removeCacheLevel_returns|]. fold n.
  cbn [cacheLevels heap].
  assert (Hp' : delete n (cacheLevels s) !! (n - 1)%nat = Some p).
  { by rewrite list_lookup_delete_lt by lia. }
  assert (Hlow : lower_of p
            (mkState (relink (delete n (cacheLevels s)) n
                        (length (delete n (cacheLevels s)) - n) (heap s))
                     (delete n (cacheLevels s)) (trace s)) = Some r).
  { unfold lower_of. cbn [heap]. rewrite relink_lookup_other.
    - specialize (Hlk _ _ Hp). unfold lower_of in Hlk. rewrite Hlk.
      by replace (S (n - 1)) with n by lia.
    - intros j Hj Hjp. rewrite list_lookup_delete_ge in Hjp by done.
      pose proof (Hinc (n - 1)%nat (S j) p p ltac:(lia) Hp Hjp). lia. }
  assert (Hnotin : r ∉ delete n (cacheLevels s)).
  { intros [j Hj]%list_elem_of_lookup.
    destruct (decide (j < n)%nat).
    - rewrite list_lookup_delete_lt in Hj by done.
      pose proof (Hinc j n r r ltac:(lia) Hj Hr). lia.
    - rewrite list_lookup_delete_ge in Hj by lia.
      pose proof (Hinc n (S j) r r ltac:(lia) Hr Hj). lia. }
  split_and!; [done..|].
  intros Hlk'. specialize (Hlk' _ _ Hp'). rewrite Hlow in Hlk'.
  cbn [cacheLevels] in Hlk'. replace (S (n - 1)) with n in Hlk' by lia.
  apply Hnotin, list_elem_of_lookup. by exists n.
Qed.

(** ** The scenarios are reachable and well formed *)

Lemma demoted_state_reached :
  session 4 two_level_script initial = Some demoted_state.
Proof. reflexivity. Qed.

Lemma three_level_state_reached :
  session 4 three_level_script initial = Some three_level_state.
Proof. reflexivity. Qed.

Lemma full_lru_state_reached :
  session 4 full_lru_script initial = Some full_lru_state.
Proof. reflexivity. Qed.

Lemma linkedb_spec s : linkedb s = true → linked s.
Proof.
  unfold linkedb. rewrite forallb_forall. intros H j a Hj.
  specialize (H (j, a)). simpl in H. rewrite bool_decide_eq_true in H.
  apply H, list_elem_of_In, list_elem_of_lookup.
  exists j. by rewrite list_lookup_imap, Hj.
Qed.

Lemma three_level_state_linked : linked three_level_state.
Proof. by apply linkedb_spec. Qed.

Lemma demoted_state_wf : wf demoted_state.
Proof.
  eapply (session_wf 4 two_level_script initial);
    [apply wf_initial|simpl; lia|reflexivity].
Qed.

Lemma three_level_state_wf : wf three_level_state.
Proof.
  eapply (session_wf 4 three_level_script initial);
    [apply wf_initial|simpl; lia|reflexivity].
Qed.

(** ** Every change of a level is a [put] or a hit *)

Lemma evolves_same_shape L L' : evolves L L' → same_shape L L'.
Proof.
  induction 1 as [|L1 L2 L3 Hstep _ IH]; [done|].
  eapply same_shape_trans; [|done].
  destruct Hstep; [apply put_local_shape|apply touch_shape].
Qed.

Lemma evolves_invariant P L L' :
  level_invariant P → evolves L L' → P L → P L'.
Proof.
  intros HP. induction 1 as [|L1 L2 L3 Hstep _ IH]; [done|].
  intros H1. apply IH. destruct Hstep; [by apply inv_put|by apply inv_touch].
Qed.

Lemma heap_evolves_refl h : heap_evolves h h.
Proof. split; [done|]. intros c L Hc. exists L. split; [done|apply rtc_refl]. Qed.

Lemma heap_evolves_trans h1 h2 h3 :
  heap_evolves h1 h2 → heap_evolves h2 h3 → heap_evolves h1 h3.
Proof.
  intros [Hl1 H1] [Hl2 H2]. split; [congruence|]. intros c L Hc.
  destruct (H1 c L Hc) as (L2 & Hc2 & He2).
  destruct (H2 c L2 Hc2) as (L3 & Hc3 & He3).
  exists L3. split; [done|]. by etrans.
Qed.

Lemma heap_evolves_insert h a L L' :
  h !! a = Some L → evolves L L' → heap_evolves h (<[a := L']> h).
Proof.
  intros Ha He. split; [by rewrite length_insert|]. intros c Lc Hc.
  destruct (decide (a = c)) as [->|].
  - exists L'. rewrite list_lookup_insert_eq by (by eapply lookup_lt_Some).
    by simplify_eq.
  - exists Lc. rewrite list_lookup_insert_ne by done. split; [done|apply rtc_refl].
Qed.

Lemma heap_evolves_frame h h' : heap_evolves h h' → frame 0 h h'.
Proof.
  intros [Hl H]. split; [done|]. intros c L Hc.
  destruct (H c L Hc) as (L' & ? & He). exists L'.
  split_and!; [done|by apply evolves_same_shape|lia].
Qed.

Lemma heap_evolves_invariant P h h' :
  level_invariant P → heap_evolves h h' → Forall P h → Forall P h'.
Proof.
  intros HP [Hl H] HF. apply Forall_lookup. intros c L' Hc'.
  destruct (lookup_lt_is_Some_2 h c) as [L Hc].
  { rewrite <-Hl. by eapply lookup_lt_Some. }
  destruct (H c L Hc) as (L2 & ? & He). simplify_eq.
  eapply evolves_invariant; [done..|]. by eapply (Forall_lookup_1 P h).
Qed.

Lemma cascade_evolves fuel a k v h : heap_evolves h (cascade fuel a k v h).1.
Proof.
  revert a k v. induction fuel as [|fuel IH]; intros a k v; simpl;
    [apply heap_evolves_refl|].
  destruct (h !! a) as [L|] eqn:Ha; [|apply heap_evolves_refl].
  assert (Hone : evolves L (put_local k v L)).
  { eapply rtc_l; [apply step_put|apply rtc_refl]. }
  destruct (demoted L) as [[ek ev]|], (lowerCache L) as [b|]; simpl;
    try (by eapply heap_evolves_insert).
  specialize (IH b ek ev). destruct (cascade fuel b ek ev h) as [h' l].
  simpl in *. destruct IH as [Hl IH]. split; [by rewrite length_insert|].
  intros c Lc Hc. destruct (decide (a = c)) as [->|].
  - exists (put_local k v L).
    rewrite list_lookup_insert_eq by (rewrite Hl; by eapply lookup_lt_Some).
    by simplify_eq.
  - rewrite list_lookup_insert_ne by done. by apply IH.
Qed.

Lemma level_put_evolves fuel a k v s :
  acyclic (heap s) → unlocked_from a (heap s) →
  (a < length (heap s))%nat → (length (heap s) - a ≤ fuel)%nat →
  ∃ s', level_put fuel a k v s = Returns JUndefined s' ∧
        heap_evolves (heap s) (heap s') ∧ cacheLevels s' = cacheLevels s.
Proof.
  intros. eexists. split; [by apply level_put_cascade|].
  split; [apply cascade_evolves|done].
Qed.

Lemma level_get_evolves fuel a k s :
  acyclic (heap s) → unlocked_from a (heap s) →
  (a < length (heap s))%nat → (length (heap s) - a ≤ fuel)%nat →
  ∀ v s', level_get fuel a k s = Returns v s' → heap_evolves (heap s) (heap s').
Proof.
  revert a s. induction fuel as [|fuel IH]; intros a [h cl t];
    simpl; intros Hac Hun Hlt Hfuel v s'; [lia|].
  destruct (lookup_lt_is_Some_2 h a Hlt) as [L Ha].
  assert (Hm : mutex L = false) by (by eapply Hun).
  destruct (JsMap.has k (cache L)) eqn:Hk.
  { pose proof (level_get_hit fuel a k (mkState h cl t) L Ha Hm Hk) as Hhit.
    simpl in Hhit. rewrite Hhit. intros [= <- <-]. simpl.
    eapply heap_evolves_insert; [done|].
    eapply rtc_l; [by apply step_touch|apply rtc_refl]. }
  unfold bind at 1, acquire, with_level. simpl. rewrite Ha, Hm.
  unfold try_finally, with_level, update_level, set_heap, log. simpl.
  rewrite (alter_insert _ _ _ _ Ha).
  rewrite list_lookup_insert_eq by done. simpl. rewrite Hk. simpl.
  destruct (lowerCache L) as [b|] eqn:Hb; simpl.
  - destruct (Hac a L b Ha Hb) as [Hab Hbl].
    unfold bind at 1.
    set (s1 := mkState (<[a:=set_mutex true L]> h) cl (t ++ [Acquire a])).
    assert (Hac1 : acyclic (heap s1)) by (by eapply acyclic_insert).
    assert (Hun1 : unlocked_from b (heap s1)).
    { apply unlocked_from_insert; [|done].
      intros c Lc ? ?. eapply (Hun c); [lia|done]. }
    assert (Hlt1 : (b < length (heap s1))%nat) by (simpl; by rewrite length_insert).
    assert (Hf1 : (length (heap s1) - b ≤ fuel)%nat)
      by (simpl; rewrite length_insert; lia).
    pose proof (level_get_frame fuel b k s1 Hac1 Hun1 Hlt1 Hf1) as Hfr.
    specialize (IH b s1 Hac1 Hun1 Hlt1 Hf1).
    destruct (level_get fuel b k s1) as [lv s2| |s2|]; try done.
    destruct Hfr as [Hfr Hcl]. specialize (IH lv s2 eq_refl).
    assert (Ha2 : heap s2 !! a = Some (set_mutex true L)).
    { eapply frame_lookup_lt; [done..|]. by apply list_lookup_insert_eq. }
    destruct (truthy lv).
    + destruct fuel as [|fuel]; [lia|]. simpl.
      unfold bind at 1. unfold bind at 1, acquire, with_level. by rewrite Ha2.
    + unfold ret, release, update_level, log, set_heap. simpl.
      rewrite (alter_insert _ _ _ _ Ha2), set_mutex_twice, (set_mutex_id false) by done.
      intros [= <- <-]. simpl. destruct IH as [Hl IH]. simpl in Hl, IH.
      rewrite length_insert in Hl.
      split; [by rewrite length_insert|].
      intros c Lc Hc. destruct (decide (c = a)) as [->|Hne].
      * exists L. rewrite list_lookup_insert_eq by lia. simplify_eq.
        split; [done|apply rtc_refl].
      * rewrite list_lookup_insert_ne by done. apply IH.
        by rewrite list_lookup_insert_ne.
  - unfold ret, release, update_level, log, set_heap. simpl.
    rewrite alter_insert_eq by lia.
    rewrite set_mutex_twice, (set_mutex_id false) by done.
    rewrite list_insert_id by done. intros [= <- <-]. apply heap_evolves_refl.
Qed.

(** ** Chain operations change levels only by local steps *)

Lemma wf_unlocked s a : wf s → unlocked_from a (heap s).
Proof. intros (_ & Hq & _) b L _ Hb. eapply (Hq b); [lia|done]. Qed.

Lemma wf_evolves s s' :
  wf s → heap_evolves (heap s) (heap s') → cacheLevels s' = cacheLevels s → wf s'.
Proof. intros ? ?%heap_evolves_frame ?. by eapply wf_frame. Qed.

Lemma promote_evolves fuel above k v s :
  wf s → Forall (fun a => (a < length (heap s))%nat) above →
  (length (heap s) ≤ fuel)%nat →
  ∃ s', promote fuel above k v s = Returns tt s' ∧
        heap_evolves (heap s) (heap s') ∧ cacheLevels s' = cacheLevels s.
Proof.
  revert s. induction above as [|a above IH]; intros s Hwf Hab Hfuel; simpl.
  { exists s. split_and!; [done|apply heap_evolves_refl|done]. }
  apply Forall_cons in Hab as [Ha Hab].
  destruct (level_put_evolves fuel a k v s) as (s1 & Hput & He1 & Hcl1);
    [apply Hwf|by apply wf_unlocked|done|lia|].
  assert (Hl : length (heap s1) = length (heap s)) by (by destruct He1).
  unfold bind. rewrite Hput.
  destruct (IH s1) as (s2 & Hpr & He2 & Hcl2);
    [by eapply wf_evolves|by rewrite Hl|lia|].
  exists s2. split_and!; [done|by eapply heap_evolves_trans|congruence].
Qed.

Lemma mlc_put_evolves fuel k v s :
  wf s → (length (heap s) ≤ fuel)%nat →
  match mlc_put fuel k v s with
  | Returns _ s' => heap_evolves (heap s) (heap s') ∧ cacheLevels s' = cacheLevels s
  | Throws _ s' => s' = s
  | _ => False
  end.
Proof.
  intros Hwf Hfuel. unfold mlc_put.
  destruct (cacheLevels s) as [|a rest] eqn:Hcl; [done|].
  pose proof Hwf as (_ & _ & Hv & _). rewrite Hcl in Hv.
  apply Forall_cons in Hv as [Ha _].
  destruct (level_put_evolves fuel a k v s) as (s' & -> & ? & ?);
    [apply Hwf|by apply wf_unlocked|done|lia|].
  split; [done|congruence].
Qed.

Lemma get_loop_evolves fuel above rest k s :
  wf s → (length (heap s) ≤ fuel)%nat →
  Forall (fun a => (a < length (heap s))%nat) above →
  Forall (fun a => (a < length (heap s))%nat) rest →
  match get_loop fuel above rest k s with
  | Returns _ s' | Throws _ s' =>
      heap_evolves (heap s) (heap s') ∧ cacheLevels s' = cacheLevels s
  | Blocks _ => True
  | Stuck => False
  end.
Proof.
  revert above s. induction rest as [|a rest IH]; intros above s Hwf Hfuel Hab Hre;
    simpl.
  - unfold fetchFromMainMemory, bind.
    pose proof (mlc_put_evolves fuel k (JString ("data for " +:+ toString k)) s
                  Hwf Hfuel) as H.
    destruct (mlc_put _ _ _ s); try done.
    subst. split; [apply heap_evolves_refl|done].
  - apply Forall_cons in Hre as [Ha Hre].
    pose proof (level_get_frame fuel a k s (proj1 Hwf) (wf_unlocked s a Hwf) Ha
                  ltac:(lia)) as Hfr.
    pose proof (level_get_evolves fuel a k s (proj1 Hwf) (wf_unlocked s a Hwf) Ha
                  ltac:(lia)) as Hev.
    unfold bind at 1.
    destruct (level_get fuel a k s) as [v s1| |s1|]; [|done..].
    destruct Hfr as [_ Hcl]. specialize (Hev v s1 eq_refl).
    assert (Hwf1 : wf s1) by (by eapply wf_evolves).
    assert (Hl : length (heap s1) = length (heap s)) by (by destruct Hev).
    case_decide.
    + specialize (IH (a :: above) s1). rewrite Hl in IH.
      destruct (get_loop fuel (a :: above) rest k s1); auto;
        destruct IH as [He Hc]; auto;
        (split; [by eapply heap_evolves_trans|congruence]).
    + destruct (promote_evolves fuel above k v s1) as (s2 & Hpr & He2 & Hcl2);
        [done|by rewrite Hl|lia|].
      unfold bind. rewrite Hpr.
      split; [by eapply heap_evolves_trans|congruence].
Qed.

Lemma mlc_get_evolves fuel k s :
  wf s → (length (heap s) ≤ fuel)%nat →
  match mlc_get fuel k s with
  | Returns _ s' | Throws _ s' =>
      heap_evolves (heap s) (heap s') ∧ cacheLevels s' = cacheLevels s
  | Blocks _ => True
  | Stuck => False
  end.
Proof.
  intros Hwf Hfuel. apply get_loop_evolves; [done..|constructor|apply Hwf].
Qed.

(** ** Invariants of single levels hold in every reachable state *)

Lemma relink_invariant P levels i n h :
  level_invariant P → Forall P h → Forall P (relink levels i n h).
Proof.
  intros HP. revert i h. induction n as [|n IH]; intros i h HF; simpl; [done|].
  apply IH. destruct (levels !! i) as [a|]; [|done].
  apply Forall_alter; [done|]. intros L _ HL. by apply inv_link.
Qed.

Lemma dispatch_invariant P fuel c s :
  level_invariant P → wf s → (length (heap s) ≤ fuel)%nat → Forall P (heap s) →
  match dispatch fuel c s with
  | Returns _ s' | Throws _ s' => Forall P (heap s')
  | Blocks _ | Stuck => True
  end.
Proof.
  intros HP Hwf Hfuel HF. destruct c as [sz p|k|k v|i]; simpl.
  - destruct (decide (valid_policy p)) as [Hp|Hp].
    + rewrite addCacheLevel_returns by done. cbn [heap].
      assert (Forall P (heap s ++ [new_level sz p])).
      { apply Forall_app. split; [done|]. repeat constructor. apply inv_new, HP. }
      destruct (last (cacheLevels s)); [|done].
      apply Forall_alter; [done|]. intros L _ HL. by apply inv_link.
    + by rewrite addCacheLevel_throws.
  - pose proof (mlc_get_evolves fuel k s Hwf Hfuel) as H.
    destruct (mlc_get fuel k s); try done;
      destruct H as [He _]; by eapply heap_evolves_invariant.
  - pose proof (mlc_put_evolves fuel k v s Hwf Hfuel) as H.
    destruct (mlc_put fuel k v s); try done.
    + destruct H as [He _]. by eapply heap_evolves_invariant.
    + by subst.
  - destruct (decide (valid_index i s)) as [Hi|Hi].
    + rewrite removeCacheLevel_returns by done. cbn [heap].
      by apply relink_invariant.
    + by rewrite removeCacheLevel_throws.
Qed.

Lemma session_invariant P fuel cmds s s' :
  level_invariant P → wf s → Forall P (heap s) →
  (length (heap s) + length cmds ≤ fuel)%nat →
  session fuel cmds s = Some s' → Forall P (heap s').
Proof.
  intros HP. revert s. induction cmds as [|c cmds IH]; intros s Hwf HF Hfuel; simpl.
  { by intros [= <-]. }
  simpl in Hfuel.
  pose proof (dispatch_settles fuel c s Hwf ltac:(lia)) as Hs.
  pose proof (dispatch_invariant P fuel c s HP Hwf ltac:(lia) HF) as Hi.
  destruct (dispatch fuel c s) as [v s1|e s1|s1|]; try done;
    destruct Hs as [Hwf1 Hl]; apply IH; (done || lia).
Qed.

(** ** Keys of the [Map] model *)

Section JsMap_keys.
Context {A B : Type}.
Implicit Types (k : jsval).

Lemma has_keys k (m : list (jsval * A)) : JsMap.has k m = true ↔ k ∈ m.*1.
Proof.
  induction m as [|[k' v'] m IH]; simpl.
  - split; [done|by intros ?%elem_of_nil].
  - rewrite elem_of_cons. case_decide; [by split; auto|]. rewrite IH. split; [auto|by intros [?|?]].
Qed.

Lemma keys_set_cong k (v : A) (w : B) m1 m2 :
  m1.*1 = m2.*1 → (JsMap.set k v m1).*1 = (JsMap.set k w m2).*1.
Proof.
  revert m2. induction m1 as [|[k1 v1] m1 IH]; intros [|[k2 v2] m2] Heq;
    simplify_eq/=; try done.
  case_decide; simpl; [by f_equal|]. f_equal. by apply IH.
Qed.

Lemma keys_delete_cong k (m1 : list (jsval * A)) (m2 : list (jsval * B)) :
  m1.*1 = m2.*1 → (JsMap.delete k m1).*1 = (JsMap.delete k m2).*1.
Proof.
  revert m2. induction m1 as [|[k1 v1] m1 IH]; intros [|[k2 v2] m2] Heq;
    simplify_eq/=; try done.
  case_decide; simpl; [done|]. f_equal. by apply IH.
Qed.

Lemma keys_set_old k (v : A) m : JsMap.has k m = true → (JsMap.set k v m).*1 = m.*1.
Proof.
  induction m as [|[k' v'] m IH]; simpl; [done|].
  case_decide; simpl; [done|]. intros. f_equal. by apply IH.
Qed.

Lemma keys_set_new k (v : A) m :
  JsMap.has k m = false → (JsMap.set k v m).*1 = m.*1 ++ [k].
Proof.
  induction m as [|[k' v'] m IH]; simpl; [done|].
  case_decide; simpl; [done|]. intros. f_equal. by apply IH.
Qed.

Lemma keys_delete_sublist k (m : list (jsval * A)) :
  (JsMap.delete k m).*1 `sublist_of` m.*1.
Proof.
  induction m as [|[k' v'] m IH]; simpl; [done|].
  case_decide; simpl; [by apply sublist_cons|by apply sublist_skip].
Qed.

Lemma NoDup_keys_set k (v : A) m : NoDup m.*1 → NoDup (JsMap.set k v m).*1.
Proof.
  intros Hnd. destruct (JsMap.has k m) eqn:E.
  - by rewrite keys_set_old.
  - rewrite keys_set_new by done. apply NoDup_app. split_and!; [done| |apply NoDup_singleton].
    intros x Hx ->%list_elem_of_singleton. apply has_keys in Hx. congruence.
Qed.

Lemma NoDup_keys_delete k (m : list (jsval * A)) :
  NoDup m.*1 → NoDup (JsMap.delete k m).*1.
Proof. intros. eapply sublist_NoDup; [done|apply keys_delete_sublist]. Qed.

Lemma Forall_set (P : jsval * A → Prop) k v m :
  (∀ k', P (k', v)) → Forall P m → Forall P (JsMap.set k v m).
Proof.
  intros Hv. induction 1 as [|[k' v'] m Hx Hm IH]; simpl.
  - by repeat constructor.
  - case_decide; constructor; auto.
Qed.

Lemma Forall_delete_key (P : jsval * A → Prop) k m :
  Forall P m → Forall P (JsMap.delete k m).
Proof.
  induction 1 as [|[k' v'] m Hx Hm IH]; simpl; [done|].
  case_decide; [done|]. by constructor.
Qed.

Lemma set_absent k (v : A) m :
  JsMap.has k m = false → JsMap.set k v m = m ++ [(k, v)].
Proof.
  induction m as [|[k' v'] m IH]; simpl; [done|].
  case_decide; [done|]. intros. by rewrite IH.
Qed.

(** The entry found by [get] is the first one under its key; [delete]
    takes out exactly that entry. *)
Lemma get_split k (v : A) m :
  JsMap.get k m = Some v →
  ∃ pre post, m = pre ++ (k, v) :: post ∧ JsMap.has k pre = false ∧
              JsMap.delete k m = pre ++ post.
Proof.
  induction m as [|[k' v'] m IH]; simpl; [done|].
  destruct (decide (k = k')) as [->|Hne].
  - intros [= ->]. by exists [], m.
  - intros (pre & post & -> & Hpre & Hdel)%IH.
    exists ((k', v') :: pre), post. simpl. rewrite decide_False by done.
    by rewrite Hdel.
Qed.

Lemma has_app k (m1 m2 : list (jsval * A)) :
  JsMap.has k (m1 ++ m2) = JsMap.has k m1 || JsMap.has k m2.
Proof.
  induction m1 as [|[k' v'] m1 IH]; simpl; [done|]. by case_decide.
Qed.
End JsMap_keys.

(** ** Three invariants of a level *)

Lemma put_local_policy k v L : evictionPolicy (put_local k v L) = evictionPolicy L.
Proof. apply put_local_shape. Qed.

Lemma put_local_size k v L : size (put_local k v L) = size L.
Proof. apply put_local_shape. Qed.

Lemma lru_within_capacity_invariant : level_invariant lru_within_capacity.
Proof.
  split.
  - intros sz p _ Hpos. unfold JsMap.size. simpl in *. lia.
  - intros k v L HL Hp Hpos. rewrite put_local_policy in Hp.
    rewrite put_local_size in *. apply put_local_capacity_LRU; auto.
  - intros k L Hk HL Hp Hpos. unfold touch in *.
    destruct (String.eqb_spec (evictionPolicy L) "LRU") as [HLRU|]; simpl in *.
    + specialize (HL HLRU Hpos). unfold JsMap.size in *.
      pose proof (length_set_le k (get_or_undefined k (cache L))
                    (JsMap.delete k (cache L))).
      pose proof (length_delete_has k (cache L) Hk). lia.
    + destruct (String.eqb (evictionPolicy L) "LFU"); simpl in *; by apply HL.
  - intros lower L HL. exact HL.
Qed.

Lemma count_or_zero_nonneg k m :
  Forall (fun e : jsval * Z => 0 ≤ e.2) m → 0 ≤ count_or_zero k m.
Proof.
  unfold count_or_zero. induction 1 as [|[k' f'] m Hx Hm IH]; simpl; [done|].
  by case_decide.
Qed.

Lemma lfu_in_sync_invariant : level_invariant lfu_in_sync.
Proof.
  split.
  - intros sz p _. by split.
  - intros k v L HL Hp. rewrite put_local_policy in Hp.
    destruct (HL Hp) as [Hkeys Hpos].
    assert (Hev : (cache (evict L).2).*1 = (accessCount (evict L).2).*1 ∧
                  Forall (fun e => 0 ≤ e.2) (accessCount (evict L).2)).
    { unfold evict. rewrite Hp. simpl.
      destruct (truthy _); simpl; [|done].
      split; [by apply keys_delete_cong|by apply Forall_delete_key]. }
    assert (Hp' : evictionPolicy (evict L).2 = "LFU"%string).
    { destruct (evict_shape L) as (_ & He & _). by rewrite He. }
    unfold put_local.
    destruct (at_capacity L); unfold store_entry; simpl; rewrite ?Hp', ?Hp; simpl.
    + destruct Hev as [Hk' Hpos']. split; [by apply keys_set_cong|].
      apply Forall_set; [|done]. intros ?. simpl. by apply count_or_zero_nonneg.
    + split; [by apply keys_set_cong|].
      apply Forall_set; [|done]. intros ?. simpl. by apply count_or_zero_nonneg.
  - intros k L Hk HL Hp.
    assert (Hp0 : evictionPolicy L = "LFU"%string).
    { destruct (touch_shape k L) as (_ & He & _). by rewrite <-He. }
    destruct (HL Hp0) as [Hkeys Hpos]. unfold touch. rewrite Hp0. simpl. split.
    + rewrite keys_set_old; [done|]. apply has_keys. rewrite <-Hkeys.
      by apply has_keys.
    + apply Forall_set; [|done]. intros ?. simpl.
      pose proof (count_or_zero_nonneg k _ Hpos). lia.
  - intros lower L HL. exact HL.
Qed.

Lemma keys_unique_invariant : level_invariant keys_unique.
Proof.
  split.
  - intros sz p. split; constructor.
  - intros k v L [Hc Ha].
    assert (Hev : keys_unique (evict L).2).
    { unfold evict. repeat case_match; split; simpl;
        auto using NoDup_keys_delete. }
    unfold put_local.
    assert (Hst : ∀ L0, keys_unique L0 → keys_unique (store_entry k v L0)).
    { intros L0 [? ?]. unfold store_entry. simpl.
      case_match; split; simpl; auto using NoDup_keys_set. }
    destruct (at_capacity L); apply Hst; [done|by split].
  - intros k L _ [Hc Ha]. unfold touch.
    repeat case_match; split; simpl;
      auto using NoDup_keys_set, NoDup_keys_delete.
  - intros lower L HL. exact HL.
Qed.

(** ** The LFU scan stops at the first smallest counter *)

Lemma lfu_scan_first_min_from m least f0 k fq :
  lfu_scan m least (Some f0) = (k, Some fq) →
  (fq = f0 ∧ k = least ∧ ∀ k' f', (k', f') ∈ m → f0 ≤ f') ∨
  (∃ pre post, m = pre ++ (k, fq) :: post ∧ fq < f0 ∧
     (∀ k' f', (k', f') ∈ pre → fq < f') ∧
     (∀ k' f', (k', f') ∈ post → fq ≤ f')).
Proof.
  revert least f0. induction m as [|[key freq] m IH]; intros least f0; simpl.
  { intros [= <- <-]. left. split_and!; [done..|]. by intros ?? ?%elem_of_nil. }
  destruct (freq <? f0) eqn:E; [apply Z.ltb_lt in E|apply Z.ltb_ge in E].
  - intros [(-> & -> & Hall)|(pre & post & -> & Hlt & Hpre & Hpost)]%IH.
    + right. exists [], m. split_and!; [done..|by intros ?? ?%elem_of_nil|done].
    + right. exists ((key, freq) :: pre), post. split_and!; [done|lia| |done].
      intros k' f' [[= -> ->]|?]%elem_of_cons; [done|by eapply Hpre].
  - intros [(-> & -> & Hall)|(pre & post & -> & Hlt & Hpre & Hpost)]%IH.
    + left. split_and!; [done..|].
      intros k' f' [[= -> ->]|?]%elem_of_cons; [done|by eapply Hall].
    + right. exists ((key, freq) :: pre), post. split_and!; [done..| |done].
      intros k' f' [[= -> ->]|?]%elem_of_cons; [lia|by eapply Hpre].
Qed.

Lemma lfu_scan_first_min m k fq :
  lfu_scan m JNull None = (k, Some fq) →
  ∃ pre post, m = pre ++ (k, fq) :: post ∧
    (∀ k' f', (k', f') ∈ pre → fq < f') ∧
    (∀ k' f', (k', f') ∈ post → fq ≤ f').
Proof.
  destruct m as [|[key freq] m]; simpl; [done|].
  intros [(-> & -> & Hall)|(pre & post & -> & Hlt & Hpre & Hpost)]%lfu_scan_first_min_from.
  - exists [], m. split_and!; [done|by intros ?? ?%elem_of_nil|done].
  - exists ((key, freq) :: pre), post. split_and!; [done| |done].
    intros k' f' [[= -> ->]|?]%elem_of_cons; [done|by eapply Hpre].
Qed.

Lemma lfu_scan_nonempty m least :
  m ≠ [] → ∃ fq, (lfu_scan m least None).2 = Some fq.
Proof.
  intros Hm. pose proof (lfu_scan_spec m least None) as H.
  destruct (lfu_scan m least None).2 as [fq|]; [by exists fq|].
  by destruct H as [? _].
Qed.

(** ** More on the [Map] model *)

Section JsMap_more.
Context {A : Type}.
Implicit Types (k : jsval) (m : list (jsval * A)).

Lemma get_app_absent k m1 m2 :
  JsMap.has k m1 = false → JsMap.get k (m1 ++ m2) = JsMap.get k m2.
Proof.
  induction m1 as [|[k' v'] m1 IH]; simpl; [done|]. by case_decide.
Qed.

Lemma delete_app_absent k m1 m2 :
  JsMap.has k m1 = false → JsMap.delete k (m1 ++ m2) = m1 ++ JsMap.delete k m2.
Proof.
  induction m1 as [|[k' v'] m1 IH]; simpl; [done|].
  case_decide; [done|]. intros. by rewrite IH.
Qed.

Lemma set_same k c m : JsMap.get k m = Some c → JsMap.set k c m = m.
Proof.
  induction m as [|[k' v'] m IH]; simpl; [done|].
  case_decide; [by intros [= ->]|]. intros. by rewrite IH.
Qed.

Lemma has_delete_absent k k' m :
  JsMap.has k m = false → JsMap.has k (JsMap.delete k' m) = false.
Proof.
  induction m as [|[k0 v0] m IH]; simpl; [done|].
  destruct (decide (k = k0)); [done|]. intros Hk.
  destruct (decide (k' = k0)); simpl; [done|]. rewrite decide_False by done. auto.
Qed.

Lemma get_has k m v : JsMap.get k m = Some v → JsMap.has k m = true.
Proof. intros H. apply has_get. by eexists. Qed.
End JsMap_more.

Lemma level_put_local fuel a k v s L :
  acyclic (heap s) → unlocked_from a (heap s) → heap s !! a = Some L →
  (length (heap s) - a ≤ fuel)%nat → demoted L = None ∨ lowerCache L = None →
  level_put fuel a k v s =
  Returns JUndefined
    (mkState (<[a := put_local k v L]> (heap s)) (cacheLevels s)
             (trace s ++ [Acquire a; Release a])).
Proof.
  intros Hac Hun Ha Hfuel Hno.
  assert (Hlt : (a < length (heap s))%nat) by (by eapply lookup_lt_Some).
  rewrite level_put_cascade by done.
  destruct fuel as [|fuel]; [lia|]. simpl. rewrite Ha.
  destruct Hno as [->| ->]; [done|]. by destruct (demoted L) as [[? ?]|].
Qed.

(** * The claims *)

(** ** C1 *)

(** C1, as stated, fails: level 0 of the two-level chain does not hold
    [a]; its [get] locks and searches level 1 and, [a] being there, then
    waits for its own lock for ever instead of answering [null]. *)
Lemma C1_counterexample :
  JsMap.has (JString "a") (entries 0 demoted_state) = false ∧
  (∃ s', level_get 3 0 (JString "a") demoted_state = Blocks s' ∧
         trace s' = trace demoted_state ++ [Acquire 0; Acquire 1; Release 1]) ∧
  ¬ (∃ s', level_get 3 0 (JString "a") demoted_state = Returns JNull s').
Proof.
  split_and!; [done|by eexists|by intros [s' H]].
Qed.

(** C1 (amended).  When the key is not in the level's own store, [get]
    does go down the chain itself: holding its own lock it calls the [get]
    of its lower level, which does the same.  If none of the levels below
    holds the key either, every level of the chain has been locked and
    searched, the answer is [null], and no store has changed; for a level
    without lower level this means that only the level's own lock was
    taken. *)
Theorem C1_get_miss_searches_lower_levels fuel a k s L :
  acyclic (heap s) → unlocked_from a (heap s) → heap s !! a = Some L →
  (length (heap s) - a ≤ fuel)%nat →
  (∀ c Lc, c ∈ chain_from fuel (heap s) a → heap s !! c = Some Lc →
           JsMap.has k (cache Lc) = false) →
  ∃ t,
    level_get fuel a k s =
      Returns JNull (mkState (heap s) (cacheLevels s) (trace s ++ t)) ∧
    t = nested (chain_from fuel (heap s) a) ∧
    (lowerCache L = None → t = [Acquire a; Release a]) ∧
    (∀ b, lowerCache L = Some b → Acquire b ∈ t).
Proof.
  intros Hac Hun Ha Hfuel Habs.
  assert (Hlt : (a < length (heap s))%nat) by (by eapply lookup_lt_Some).
  eexists. split_and!; [by apply level_get_miss|done|..].
  - intros Hnone. destruct fuel as [|fuel]; [lia|].
    simpl. by rewrite Ha; simpl; rewrite Hnone.
  - intros b Hb. destruct (Hac a L b Ha Hb) as [Hab Hbl].
    destruct fuel as [|[|fuel]]; [lia..|].
    simpl. rewrite Ha. simpl. rewrite Hb. rewrite nested_cons.
    apply list_elem_of_further, elem_of_app. left.
    simpl. unfold nested. simpl. apply list_elem_of_here.
Qed.

Lemma C1_witness :
  acyclic (heap demoted_state) ∧ unlocked_from 0 (heap demoted_state) ∧
  (∀ c Lc, c ∈ chain_from 3 (heap demoted_state) 0 →
           heap demoted_state !! c = Some Lc →
           JsMap.has (JString "z") (cache Lc) = false) ∧
  ∃ t,
    level_get 3 0 (JString "z") demoted_state =
      Returns JNull (mkState (heap demoted_state) (cacheLevels demoted_state)
                             (trace demoted_state ++ t)) ∧
    t = [Acquire 0; Acquire 1; Release 1; Release 0].
Proof.
  assert (Hac : acyclic (heap demoted_state)) by (by apply acyclicb_spec).
  assert (Hun : unlocked_from 0 (heap demoted_state)) by (by apply quiescentb_spec).
  assert (Habs : ∀ c Lc, c ∈ chain_from 3 (heap demoted_state) 0 →
            heap demoted_state !! c = Some Lc →
            JsMap.has (JString "z") (cache Lc) = false).
  { intros c Lc _ Hc. destruct c as [|[|c]]; simpl in Hc; by simplify_eq. }
  split_and!; [done..|].
  destruct (C1_get_miss_searches_lower_levels 3 0 (JString "z") demoted_state
              (mkCacheLevel 1 "LRU" [(JString "b", JNumber 2)] [] false (Some 1%nat)))
    as (t & Hget & Ht & _); [done|done|reflexivity|simpl; lia|done|].
  by exists t.
Defined.

(** ** C2 *)

(** C2: the re-linking loop of [removeCacheLevel] starts at the index of
    the removed level, so the level before it is never re-linked.  After
    [removeCacheLevel(1)] on three levels, level 0 still points to the
    removed level, and an entry evicted from level 0 is stored there, not
    in the former level 2. *)
Theorem C2_removeCacheLevel_stale_link :
  ∃ s1 s2,
    removeCacheLevel 1 three_level_state = Returns JUndefined s1 ∧
    cacheLevels s1 = [0; 2]%nat ∧
    lower_of 0 s1 = Some 1%nat ∧
    ¬ linked s1 ∧
    session 4 [CPut (JString "a") (JNumber 1); CPut (JString "b") (JNumber 2)] s1
      = Some s2 ∧
    entries 0 s2 = [(JString "b", JNumber 2)] ∧
    entries 1 s2 = [(JString "a", JNumber 1)] ∧
    entries 2 s2 = [].
Proof.
  eexists _, _. split_and!; try reflexivity.
  intros H. by specialize (H 0%nat 0%nat eq_refl).
Qed.

(** ** C3 *)

(** C3, as stated, fails on both counts: a [put] that demotes holds the
    locks of levels 0 and 1 together, and a [get] of a key that sits in
    level 1 never completes: level 0 asks for its own lock while holding
    it. *)
Lemma C3_counterexample :
  (∃ s', mlc_put 3 (JString "c") (JNumber 3) demoted_state = Returns JUndefined s' ∧
         max_held [] (drop (length (trace demoted_state)) (trace s')) = 2%nat) ∧
  (∃ s', mlc_get 3 (JString "a") demoted_state = Blocks s' ∧
         mutex <$> heap s' !! 0%nat = Some true) ∧
  ¬ completes (mlc_get 3 (JString "a") demoted_state).
Proof.
  split_and!; [by eexists|by eexists|by intros (v & s' & H)].
Qed.

(** C3 (amended).  A chain [put] on a well-formed chain whose locks are all
    free takes the locks nested, not one after the other: every level of
    the demotion cascade keeps its own lock while the [put] of its lower
    neighbour runs, so that as many locks are held at once as levels are
    visited.  The locks are taken in strictly descending chain order, each
    once, never while already held, and are released in reverse order;
    the call runs to completion and leaves every lock free.  A chain [get]
    runs to completion when no level holds the key, and when the top
    level holds it. *)
Theorem C3_locks_nested_calls_complete fuel k v s a rest :
  wf s → cacheLevels s = a :: rest → (length (heap s) ≤ fuel)%nat →
  (∃ s' l,
     mlc_put fuel k v s = Returns JUndefined s' ∧
     trace s' = trace s ++ nested (a :: l) ∧
     StronglySorted lt (a :: l) ∧
     held_after [] (nested (a :: l)) = [] ∧
     max_held [] (nested (a :: l)) = S (length l) ∧
     wf s') ∧
  ((∀ c L, heap s !! c = Some L → JsMap.has k (cache L) = false) →
   completes (mlc_get fuel k s)) ∧
  (∀ L, heap s !! a = Some L → JsMap.has k (cache L) = true →
        get_or_undefined k (cache L) ≠ JNull →
        completes (mlc_get fuel k s)).
Proof.
  intros Hwf Hcl Hfuel. pose proof Hwf as (Hac & Hq & Hv & _).
  rewrite Hcl in Hv. apply Forall_cons in Hv as [Hlt _].
  destruct (lookup_lt_is_Some_2 _ _ Hlt) as [L Ha].
  split_and!.
  - destruct (level_put_spec fuel a k v s L)
      as (s' & l & Hput & _ & Hfr & Hcl' & Htr & Hs); [done| |done|lia|].
    { intros b Lb _ Hb. by eapply Hq; [|done]; lia. }
    exists s', l. unfold mlc_put. rewrite Hcl.
    destruct (nested_held (a :: l) []) as [Hh Hm];
      [by apply sorted_lt_NoDup|by intros ?? ?%elem_of_nil|].
    split_and!; try done.
    eapply wf_frame; [done| |done]. eapply frame_weaken; [|done]. lia.
  - intros Habs.
    destruct (mlc_get_all_miss fuel k s a rest) as (s' & Hget & _); [done..|].
    by eexists _, _.
  - intros L' HL' Hk Hv. simplify_eq.
    destruct fuel as [|fuel]; [lia|].
    eexists _, _. apply (mlc_get_top_hit fuel k s a rest L); [done..| |done|done].
    by eapply Hq; [|done]; lia.
Qed.

Lemma C3_witness :
  wf demoted_state ∧ cacheLevels demoted_state = [0; 1]%nat ∧
  (∃ s' l,
     mlc_put 3 (JString "c") (JNumber 3) demoted_state = Returns JUndefined s' ∧
     trace s' = trace demoted_state ++ nested (0%nat :: l) ∧
     max_held [] (nested (0%nat :: l)) = S (length l)) ∧
  completes (mlc_get 3 (JString "z") demoted_state) ∧
  completes (mlc_get 3 (JString "b") demoted_state).
Proof.
  pose proof demoted_state_wf as Hwf.
  destruct (C3_locks_nested_calls_complete 3 (JString "z") (JNumber 3)
              demoted_state 0 [1%nat] Hwf eq_refl ltac:(simpl; lia))
    as (_ & Hmiss & _).
  destruct (C3_locks_nested_calls_complete 3 (JString "c") (JNumber 3)
              demoted_state 0 [1%nat] Hwf eq_refl ltac:(simpl; lia))
    as ((s' & l & Hput & Htr & _ & _ & Hmax & _) & _ & _).
  destruct (C3_locks_nested_calls_complete 3 (JString "b") (JNumber 3)
              demoted_state 0 [1%nat] Hwf eq_refl ltac:(simpl; lia))
    as (_ & _ & Hhit).
  split_and!; [done|done|by exists s', l| |].
  - apply Hmiss. intros c L Hc.
    destruct c as [|[|c]]; simpl in Hc; by simplify_eq.
  - by apply (Hhit (mkCacheLevel 1 "LRU" [(JString "b", JNumber 2)] [] false
                      (Some 1%nat))).
Defined.

(** ** C4 *)

(** C4, as stated, fails: the full level evicts [a] to make room for [b],
    and the call yields [undefined], not the evicted entry. *)
Lemma C4_counterexample :
  entries 0 full_lru_state = [(JString "a", JNumber 1)] ∧
  ∃ s', level_put 2 0 (JString "b") (JNumber 2) full_lru_state
          = Returns JUndefined s' ∧
        entries 0 s' = [(JString "b", JNumber 2)].
Proof. split; [done|by eexists]. Qed.

(** C4 (amended).  [CacheLevel.put] returns nothing.  It inserts or
    overwrites the entry.  Below capacity it evicts nothing and touches no
    other level.  At capacity, for a new key, it first calls [evict]: with
    LRU the oldest entry is removed, with LFU an entry whose counter is
    smallest (when the key found by the scan is truthy).  The evicted
    entry is not handed back to the caller: the level itself passes it to
    the [put] of its lower level, where it is stored, or drops it when
    there is no lower level. *)
Theorem C4_put_effect fuel a k v s L :
  acyclic (heap s) → unlocked_from a (heap s) → heap s !! a = Some L →
  (length (heap s) - a ≤ fuel)%nat →
  ∃ s',
    level_put fuel a k v s = Returns JUndefined s' ∧
    JsMap.get k (entries a s') = Some v ∧
    (at_capacity L = false →
       heap s' = <[a := store_entry k v L]> (heap s) ∧
       entries a s' = JsMap.set k v (cache L)) ∧
    (at_capacity L = true → JsMap.has k (cache L) = false →
       entries a s' = JsMap.set k v (cache (evict L).2) ∧
       match (evict L).1, lowerCache L with
       | Some (ek, ev), Some b => JsMap.get ek (entries b s') = Some ev
       | _, _ => ∀ c, c ≠ a → heap s' !! c = heap s !! c
       end) ∧
    (evictionPolicy L = "LRU"%string → ∀ k0 v0 older,
       cache L = (k0, v0) :: older →
       evict L = (Some (k0, v0), set_cache older L)) ∧
    (evictionPolicy L = "LFU"%string →
       ∀ victim, victim = (lfu_scan (accessCount L) JNull None).1 →
       truthy victim = true →
       (evict L).1 = Some (victim, get_or_undefined victim (cache L)) ∧
       cache (evict L).2 = JsMap.delete victim (cache L) ∧
       ∃ fq, (victim, fq) ∈ accessCount L ∧
             ∀ k' f', (k', f') ∈ accessCount L → fq ≤ f').
Proof.
  intros Hac Hun Ha Hfuel.
  assert (Hlt : (a < length (heap s))%nat) by (by eapply lookup_lt_Some).
  destruct fuel as [|fuel]; [lia|].
  eexists. split; [by apply level_put_cascade|].
  unfold entries at 1. cbn [heap cacheLevels trace].
  rewrite (cascade_lookup_top _ _ _ _ _ _ Ha). cbn [from_option].
  rewrite cache_put_local.
  split_and!.
  - apply get_set_eq.
  - intros Hcap. unfold entries. simpl. rewrite Ha. unfold demoted, put_local.
    rewrite Hcap. simpl.
    rewrite list_lookup_insert_eq by done. simpl.
    by rewrite cache_store_entry.
  - intros Hcap _. unfold entries. simpl. rewrite Ha. unfold demoted.
    rewrite Hcap.
    destruct (evict L).1 as [[ek ev]|] eqn:Hev, (lowerCache L) as [b|] eqn:Hb;
      simpl.
    2-4: rewrite list_lookup_insert_eq by done; simpl;
         rewrite cache_put_local, Hcap;
         (split; [done|]); intros c Hc; by rewrite list_lookup_insert_ne.
    destruct (Hac a L b Ha Hb) as [Hab Hbl].
    destruct (lookup_lt_is_Some_2 _ _ Hbl) as [Lb HLb].
    destruct fuel as [|fuel]; [lia|].
    pose proof (cascade_lookup_top fuel b ek ev _ _ HLb) as Htop.
    pose proof (cascade_length (S fuel) b ek ev (heap s)) as Hlen.
    destruct (cascade (S fuel) b ek ev (heap s)) as [h' l]. simpl in *.
    rewrite list_lookup_insert_eq by lia. simpl.
    rewrite cache_put_local, Hcap. split; [done|].
    rewrite list_lookup_insert_ne by lia. rewrite Htop. simpl.
    rewrite cache_put_local. apply get_set_eq.
  - intros. by apply evict_LRU.
  - intros Hp victim -> Ht.
    destruct (evict_LFU L Hp Ht) as [-> ?]. done.
Qed.

Lemma C4_witness :
  acyclic (heap demoted_state) ∧ unlocked_from 0 (heap demoted_state) ∧
  ∃ s',
    level_put 3 0 (JString "c") (JNumber 3) demoted_state = Returns JUndefined s' ∧
    JsMap.get (JString "c") (entries 0 s') = Some (JNumber 3).
Proof.
  assert (Hac : acyclic (heap demoted_state)) by (by apply acyclicb_spec).
  assert (Hun : unlocked_from 0 (heap demoted_state)) by (by apply quiescentb_spec).
  split_and!; [done..|].
  destruct (C4_put_effect 3 0 (JString "c") (JNumber 3) demoted_state
              (mkCacheLevel 1 "LRU" [(JString "b", JNumber 2)] [] false (Some 1%nat)))
    as (s' & Hput & Hget & _); [done|done|reflexivity|simpl; lia|].
  by exists s'.
Defined.

(** ** C5 *)

(** C5: on an LFU level [evict] tests the key it found for truthiness, so
    an entry under the empty string is never evicted; the second [put]
    leaves two entries in a level of capacity 1. *)
Theorem C5_lfu_falsy_key_overflows :
  ∃ s,
    session 2 [CAdd 1 "LFU"; CPut (JString EmptyString) (JString "x");
               CPut (JString "b") (JString "y")] initial = Some s ∧
    size <$> heap s !! 0%nat = Some 1 ∧
    entries 0 s = [(JString EmptyString, JString "x"); (JString "b", JString "y")] ∧
    JsMap.size (entries 0 s) = 2.
Proof. eexists. split_and!; reflexivity. Qed.

(** ** C6 *)

(** C6: on a chain without levels [get] goes straight to
    [fetchFromMainMemory], whose [put] reads [cacheLevels[0]] and throws. *)
Theorem C6_get_on_empty_chain_throws fuel k :
  mlc_get fuel k initial = Throws TypeError initial.
Proof. reflexivity. Qed.

(** ** C7 *)

(** C7.  Capacity 2, LRU: after [put(a,1); put(b,2); get(a)] the order is
    [b, a]; [put(c,3)] then removes [b] and nothing else. *)
Theorem C7_lru_order :
  ∃ s3 s4,
    (level_put 1 0 (JString "a") (JNumber 1) ;;;
     level_put 1 0 (JString "b") (JNumber 2) ;;;
     level_get 1 0 (JString "a")) (single_level "LRU") = Returns (JNumber 1) s3 ∧
    entries 0 s3 = [(JString "b", JNumber 2); (JString "a", JNumber 1)] ∧
    level_put 1 0 (JString "c") (JNumber 3) s3 = Returns JUndefined s4 ∧
    entries 0 s4 = [(JString "a", JNumber 1); (JString "c", JNumber 3)].
Proof. eexists _, _. split_and!; reflexivity. Qed.

(** ** C8 *)

(** C8: [put] evicts before it looks whether the key is already stored.
    Overwriting the only key of a full LFU level evicts that very key,
    counter included, and the key comes back with counter 0. *)
Theorem C8_overwrite_resets_frequency :
  ∃ s1 s2,
    session 2 [CAdd 1 "LFU"; CPut (JString "a") (JNumber 1); CGet (JString "a")]
      initial = Some s1 ∧
    counters 0 s1 = [(JString "a", 1)] ∧
    mlc_put 2 (JString "a") (JNumber 2) s1 = Returns JUndefined s2 ∧
    entries 0 s2 = [(JString "a", JNumber 2)] ∧
    counters 0 s2 = [(JString "a", 0)].
Proof. eexists _, _. split_and!; reflexivity. Qed.

(** The scenario of the specification is as it says. *)
Lemma lfu_order_example :
  ∃ s4 s5,
    (level_put 1 0 (JString "a") (JNumber 1) ;;;
     level_put 1 0 (JString "b") (JNumber 2) ;;;
     level_get 1 0 (JString "a") ;;;
     level_get 1 0 (JString "a")) (single_level "LFU") = Returns (JNumber 1) s4 ∧
    counters 0 s4 = [(JString "a", 2); (JString "b", 0)] ∧
    level_put 1 0 (JString "c") (JNumber 3) s4 = Returns JUndefined s5 ∧
    entries 0 s5 = [(JString "a", JNumber 1); (JString "c", JNumber 3)] ∧
    counters 0 s5 = [(JString "a", 2); (JString "c", 0)].
Proof. eexists _, _. split_and!; reflexivity. Qed.

(** ** C9 *)

(** C9.  [addCacheLevel] throws exactly when the policy is neither "LRU"
    nor "LFU", and [removeCacheLevel] exactly when the index is outside
    [0 <= index < cacheLevels.length].  In both cases the check is the
    first thing the method does: the state after the throw is the state
    before the call.  [CacheLevel.get] and [CacheLevel.put] throw nothing,
    and [MultiLevelCache.get] and [MultiLevelCache.put] never throw one of
    these validation errors. *)
Theorem C9_validation_precedes_mutation :
  (∀ sz p s, (∃ e s', addCacheLevel sz p s = Throws e s')
             ↔ p ≠ "LRU"%string ∧ p ≠ "LFU"%string) ∧
  (∀ i s, (∃ e s', removeCacheLevel i s = Throws e s')
          ↔ ¬ (0 ≤ i < Z.of_nat (length (cacheLevels s)))) ∧
  (∀ sz p s e s', addCacheLevel sz p s = Throws e s' →
     s' = s ∧ e = Error "Eviction policy must be LRU or LFU") ∧
  (∀ i s e s', removeCacheLevel i s = Throws e s' →
     s' = s ∧ e = Error "Invalid cache level index") ∧
  (∀ fuel a k s e s', level_get fuel a k s ≠ Throws e s') ∧
  (∀ fuel a k v s e s', level_put fuel a k v s ≠ Throws e s') ∧
  (∀ fuel k s msg s', mlc_get fuel k s ≠ Throws (Error msg) s') ∧
  (∀ fuel k v s msg s', mlc_put fuel k v s ≠ Throws (Error msg) s').
Proof.
  split_and!.
  - intros sz p s. split.
    + intros (e & s' & H). destruct (decide (valid_policy p)) as [Hp|Hp].
      * by rewrite addCacheLevel_returns in H.
      * unfold valid_policy in Hp. tauto.
    + intros [H1 H2]. eexists _, _. apply addCacheLevel_throws.
      unfold valid_policy. tauto.
  - intros i s. split.
    + intros (e & s' & H) Hi. by rewrite removeCacheLevel_returns in H.
    + intros Hi. eexists _, _. by apply removeCacheLevel_throws.
  - intros sz p s e s' H. destruct (decide (valid_policy p)) as [Hp|Hp].
    + by rewrite addCacheLevel_returns in H.
    + rewrite addCacheLevel_throws in H by done. by simplify_eq.
  - intros i s e s' H. destruct (decide (valid_index i s)) as [Hi|Hi].
    + by rewrite removeCacheLevel_returns in H.
    + rewrite removeCacheLevel_throws in H by done. by simplify_eq.
  - intros. apply level_get_no_throw.
  - intros. apply level_put_no_throw.
  - intros fuel k s msg s' H. by apply get_loop_throws in H.
  - intros fuel k v s msg s' H. by apply mlc_put_throws in H as [? _].
Qed.

(** ** C10 *)

(** C10.  [addCacheLevel] never looks at the capacity: whatever the number,
    zero and negative included, a call with a valid policy returns and
    appends a level of that capacity.  A [put] on a level whose capacity
    is zero (or less) still stores the entry, so that the store is larger
    than the capacity afterwards. *)
Theorem C10_capacity_unchecked sz p s fuel a k v s0 L :
  valid_policy p →
  acyclic (heap s0) → unlocked_from a (heap s0) → heap s0 !! a = Some L →
  size L ≤ 0 → (length (heap s0) - a ≤ fuel)%nat →
  (∃ s', addCacheLevel sz p s = Returns JUndefined s' ∧
         cacheLevels s' = cacheLevels s ++ [length (heap s)] ∧
         length (heap s') = S (length (heap s)) ∧
         size <$> heap s' !! length (heap s) = Some sz ∧
         evictionPolicy <$> heap s' !! length (heap s) = Some p) ∧
  (∃ s', level_put fuel a k v s0 = Returns JUndefined s' ∧
         JsMap.get k (entries a s') = Some v ∧
         size L < JsMap.size (entries a s')).
Proof.
  intros Hp Hac Hun Ha Hsz Hfuel. split.
  - eexists. split; [by apply addCacheLevel_returns|]. simpl.
    assert (Hnew : ∀ {A} (f : CacheLevel → A),
              f <$> (heap s ++ [new_level sz p]) !! length (heap s)
              = Some (f (new_level sz p))).
    { intros A f. rewrite lookup_app_r by lia. by rewrite Nat.sub_diag. }
    destruct (last (cacheLevels s)) as [q|];
      rewrite ?length_alter, ?length_app, ?lookup_alter_setLowerCache by done;
      rewrite !Hnew; simpl; split_and!; try done; lia.
  - destruct (level_put_spec fuel a k v s0 L) as (s' & l & Hput & Ha' & _);
      [done..|].
    exists s'. rewrite (entries_lookup _ _ _ Ha'), cache_put_local.
    split_and!; [done|apply get_set_eq|].
    pose proof (length_set_ge k v (cache (if at_capacity L then (evict L).2 else L))).
    unfold JsMap.size. lia.
Qed.

Lemma C10_witness :
  valid_policy "LFU" ∧
  acyclic (heap zero_capacity_state) ∧ unlocked_from 0 (heap zero_capacity_state) ∧
  (∃ s', addCacheLevel (-3) "LFU" initial = Returns JUndefined s' ∧
         cacheLevels s' = [0%nat] ∧
         size <$> heap s' !! 0%nat = Some (-3)) ∧
  (∃ s', level_put 1 0 (JString "a") (JNumber 1) zero_capacity_state
           = Returns JUndefined s' ∧
         JsMap.get (JString "a") (entries 0 s') = Some (JNumber 1) ∧
         0 < JsMap.size (entries 0 s')).
Proof.
  assert (Hp : valid_policy "LFU") by (by right).
  assert (Hac : acyclic (heap zero_capacity_state)) by (by apply acyclicb_spec).
  assert (Hun : unlocked_from 0 (heap zero_capacity_state))
    by (by apply quiescentb_spec).
  split_and!; [done..| |].
  - destruct (C10_capacity_unchecked (-3) "LFU" initial 1 0 (JString "a") (JNumber 1)
                zero_capacity_state (new_level 0 "LFU"))
      as [(s' & Hadd & Hcl & _ & Hsz & _) _];
      [done|done|done|reflexivity|simpl; lia|simpl; lia|].
    by exists s'.
  - destruct (C10_capacity_unchecked (-3) "LFU" initial 1 0 (JString "a") (JNumber 1)
                zero_capacity_state (new_level 0 "LFU"))
      as [_ (s' & Hput & Hget & Hsz)];
      [done|done|done|reflexivity|simpl; lia|simpl; lia|].
    by exists s'.
Defined.

(** * Further properties *)

(** ** Eviction *)

(** X1.  When [evict] removes an entry from an LFU level, it is the first
    entry, in the insertion order of [accessCount], among those with the
    smallest counter: every earlier counter is larger, no later counter is
    smaller.  The value handed out is the one stored under that key. *)
Theorem X1_lfu_evicts_first_least_frequent L k v L' :
  evictionPolicy L = "LFU"%string → evict L = (Some (k, v), L') →
  ∃ pre fq post,
    accessCount L = pre ++ (k, fq) :: post ∧
    (∀ k' f', (k', f') ∈ pre → fq < f') ∧
    (∀ k' f', (k', f') ∈ post → fq ≤ f') ∧
    v = get_or_undefined k (cache L) ∧
    cache L' = JsMap.delete k (cache L) ∧
    accessCount L' = JsMap.delete k (accessCount L).
Proof.
  intros Hp. unfold evict. rewrite Hp. simpl.
  destruct (lfu_scan (accessCount L) JNull None) as [victim mf] eqn:Hscan. simpl.
  destruct (truthy victim) eqn:Ht; [|done]. intros [= <- <- <-].
  destruct mf as [fq|].
  - destruct (lfu_scan_first_min _ _ _ Hscan) as (pre & post & Hm & Hpre & Hpost).
    by exists pre, fq, post.
  - pose proof (lfu_scan_spec (accessCount L) JNull None) as H.
    rewrite Hscan in H. simpl in H. destruct H as (_ & _ & ->). done.
Qed.

Lemma X1_witness :
  let L := mkCacheLevel 2 "LFU"
             [(JString "a", JNumber 1); (JString "b", JNumber 2)]
             [(JString "a", 2); (JString "b", 0)] false None in
  evictionPolicy L = "LFU"%string ∧
  ∃ L', evict L = (Some (JString "b", JNumber 2), L') ∧
  ∃ pre fq post,
    accessCount L = pre ++ (JString "b", fq) :: post ∧
    (∀ k' f', (k', f') ∈ pre → fq < f').
Proof.
  intros L. split; [done|]. eexists. split; [reflexivity|].
  destruct (X1_lfu_evicts_first_least_frequent L (JString "b") (JNumber 2) _
              eq_refl eq_refl) as (pre & fq & post & Hm & Hpre & _).
  by exists pre, fq, post.
Defined.

(** ** Hits *)

(** X2.  A hit of [get] on an LRU level returns the stored value and moves
    the entry to the most recent end of the store; the other entries keep
    their order, and no other level is touched. *)
Theorem X2_lru_hit_moves_entry_last fuel a k v s L pre post :
  heap s !! a = Some L → mutex L = false →
  evictionPolicy L = "LRU"%string → NoDup (cache L).*1 →
  cache L = pre ++ (k, v) :: post →
  level_get (S fuel) a k s =
  Returns v
    (mkState (<[a := set_cache (pre ++ post ++ [(k, v)]) L]> (heap s))
             (cacheLevels s) (trace s ++ [Acquire a; Release a])).
Proof.
  intros Ha Hm Hp Hnd Hc.
  rewrite Hc, fmap_app, fmap_cons in Hnd. simpl in Hnd.
  apply NoDup_app in Hnd as (_ & Hpre & [Hpost _]%NoDup_cons).
  assert (Hk1 : JsMap.has k pre = false).
  { destruct (JsMap.has k pre) eqn:E; [|done]. apply has_keys in E.
    exfalso. eapply Hpre; [done|]. apply list_elem_of_here. }
  assert (Hk2 : JsMap.has k post = false).
  { destruct (JsMap.has k post) eqn:E; [|done]. by apply has_keys in E. }
  assert (Hget : JsMap.get k (cache L) = Some v).
  { rewrite Hc, get_app_absent by done. simpl. by rewrite decide_True. }
  rewrite (level_get_hit fuel a k s L) by (done || by eapply get_has).
  unfold get_or_undefined, touch. rewrite Hget, Hp. simpl.
  rewrite Hc, delete_app_absent by done. simpl. rewrite decide_True by done.
  rewrite set_absent by (by rewrite has_app, Hk1, Hk2).
  unfold get_or_undefined. rewrite <-Hc, Hget. simpl. by rewrite <-app_assoc.
Qed.

Lemma X2_witness :
  ∃ s',
    level_get 1 0 (JString "a")
      (mkState [mkCacheLevel 2 "LRU"
                  [(JString "a", JNumber 1); (JString "b", JNumber 2)] [] false None]
               [0%nat] []) = Returns (JNumber 1) s' ∧
    entries 0 s' = [(JString "b", JNumber 2); (JString "a", JNumber 1)].
Proof.
  eexists. split.
  - apply (X2_lru_hit_moves_entry_last 0 0 (JString "a") (JNumber 1) _
             (mkCacheLevel 2 "LRU"
                [(JString "a", JNumber 1); (JString "b", JNumber 2)] [] false None)
             [] [(JString "b", JNumber 2)]); try reflexivity.
    simpl. apply NoDup_cons. split; [|apply NoDup_singleton].
    by intros ?%list_elem_of_singleton.
  - reflexivity.
Defined.

(** X3.  A hit of [get] on an LFU level returns the stored value, leaves
    the store as it is, and adds one to the counter of the key; no other
    counter changes. *)
Theorem X3_lfu_hit_counts_one_access fuel a k v s L :
  heap s !! a = Some L → mutex L = false →
  evictionPolicy L = "LFU"%string → JsMap.get k (cache L) = Some v →
  ∃ s',
    level_get (S fuel) a k s = Returns v s' ∧
    entries a s' = cache L ∧
    JsMap.get k (counters a s') = Some (count_or_zero k (accessCount L) + 1) ∧
    (∀ k', k' ≠ k → JsMap.get k' (counters a s') = JsMap.get k' (accessCount L)) ∧
    (∀ c, c ≠ a → heap s' !! c = heap s !! c).
Proof.
  intros Ha Hm Hp Hget.
  assert (Hlt : (a < length (heap s))%nat) by (by eapply lookup_lt_Some).
  eexists. split.
  { rewrite (level_get_hit fuel a k s L) by (done || by eapply get_has).
    unfold get_or_undefined. by rewrite Hget. }
  unfold entries, counters. cbn [heap].
  rewrite list_lookup_insert_eq by done. unfold touch. rewrite Hp. simpl.
  split_and!; [done|apply get_set_eq| |].
  - intros k' Hne. by apply get_set_ne.
  - intros c Hne. by rewrite list_lookup_insert_ne.
Qed.

Lemma X3_witness :
  ∃ s',
    level_get 1 0 (JString "a")
      (mkState [mkCacheLevel 2 "LFU" [(JString "a", JNumber 1)]
                  [(JString "a", 4)] false None] [0%nat] [])
      = Returns (JNumber 1) s' ∧
    JsMap.get (JString "a") (counters 0 s') = Some 5.
Proof.
  destruct (X3_lfu_hit_counts_one_access 0 0 (JString "a") (JNumber 1)
              (mkState [mkCacheLevel 2 "LFU" [(JString "a", JNumber 1)]
                          [(JString "a", 4)] false None] [0%nat] [])
              (mkCacheLevel 2 "LFU" [(JString "a", JNumber 1)]
                 [(JString "a", 4)] false None))
    as (s' & Hget & _ & Hc & _); [reflexivity..|].
  by exists s'.
Defined.

(** ** Insertion *)

(** X4.  A [put] under a key that is already stored, on a level that is
    not full, replaces the value where the entry stands: the order of the
    keys, the other values and the size stay, no other level is touched,
    and the counter of the key is kept. *)
Theorem X4_overwrite_below_capacity fuel a k v s L :
  acyclic (heap s) → unlocked_from a (heap s) → heap s !! a = Some L →
  (length (heap s) - a ≤ fuel)%nat →
  at_capacity L = false → JsMap.has k (cache L) = true →
  ∃ s' L',
    level_put fuel a k v s = Returns JUndefined s' ∧
    heap s' = <[a := L']> (heap s) ∧
    (cache L').*1 = (cache L).*1 ∧
    JsMap.get k (cache L') = Some v ∧
    (∀ k', k' ≠ k → JsMap.get k' (cache L') = JsMap.get k' (cache L)) ∧
    (JsMap.has k (accessCount L) = true → accessCount L' = accessCount L).
Proof.
  intros Hac Hun Ha Hfuel Hcap Hk.
  eexists _, (put_local k v L). split.
  { apply level_put_local; [done..|]. left. unfold demoted. by rewrite Hcap. }
  cbn [heap]. unfold put_local. rewrite Hcap.
  rewrite cache_store_entry.
  split_and!; [done|by apply keys_set_old|apply get_set_eq| |].
  - intros k' Hne. by apply get_set_ne.
  - intros [c Hc]%has_get. unfold store_entry. simpl.
    case_match; simpl; [|done].
    unfold count_or_zero. rewrite Hc. simpl. by apply set_same.
Qed.

Lemma X4_witness :
  ∃ s',
    level_put 1 0 (JString "a") (JNumber 7)
      (mkState [mkCacheLevel 3 "LFU"
                  [(JString "a", JNumber 1); (JString "b", JNumber 2)]
                  [(JString "a", 4); (JString "b", 0)] false None] [0%nat] [])
      = Returns JUndefined s' ∧
    entries 0 s' = [(JString "a", JNumber 7); (JString "b", JNumber 2)] ∧
    counters 0 s' = [(JString "a", 4); (JString "b", 0)].
Proof.
  set (L := mkCacheLevel 3 "LFU"
              [(JString "a", JNumber 1); (JString "b", JNumber 2)]
              [(JString "a", 4); (JString "b", 0)] false None).
  destruct (X4_overwrite_below_capacity 1 0 (JString "a") (JNumber 7)
              (mkState [L] [0%nat] []) L)
    as (s' & L' & Hput & _); [by apply acyclicb_spec|by apply quiescentb_spec|
                              reflexivity|simpl; lia|reflexivity|reflexivity|].
  exists s'. split; [done|].
  assert (Hs : Returns JUndefined s' =
               level_put 1 0 (JString "a") (JNumber 7) (mkState [L] [0%nat] []))
    by done.
  vm_compute in Hs. by injection Hs as ->.
Defined.

(** X5.  On an LFU level whose two maps are in step, a key that was not
    stored starts with counter 0, also when its insertion evicts another
    entry. *)
Theorem X5_lfu_new_key_starts_at_zero fuel a k v s L :
  acyclic (heap s) → unlocked_from a (heap s) → heap s !! a = Some L →
  (length (heap s) - a ≤ fuel)%nat →
  evictionPolicy L = "LFU"%string → lfu_in_sync L →
  JsMap.has k (cache L) = false →
  ∃ s', level_put fuel a k v s = Returns JUndefined s' ∧
        JsMap.get k (entries a s') = Some v ∧
        JsMap.get k (counters a s') = Some 0.
Proof.
  intros Hac Hun Ha Hfuel Hp Hsync Hk.
  destruct (level_put_spec fuel a k v s L) as (s' & l & Hput & Ha' & _); [done..|].
  exists s'. split; [done|].
  rewrite (entries_lookup _ _ _ Ha'), (counters_lookup _ _ _ Ha').
  rewrite cache_put_local. split; [apply get_set_eq|].
  destruct (Hsync Hp) as [Hkeys _].
  assert (Hka : JsMap.has k (accessCount L) = false).
  { destruct (JsMap.has k (accessCount L)) eqn:E; [|done].
    apply has_keys in E. rewrite <-Hkeys in E. apply has_keys in E. congruence. }
  assert (Hke : JsMap.has k (accessCount (evict L).2) = false).
  { unfold evict. rewrite Hp. simpl. destruct (truthy _); simpl; [|done].
    by apply has_delete_absent. }
  assert (Hpe : evictionPolicy (evict L).2 = "LFU"%string).
  { destruct (evict_shape L) as (_ & He & _). by rewrite He. }
  unfold put_local, store_entry.
  destruct (at_capacity L); simpl; rewrite ?Hpe, ?Hp; simpl;
    rewrite get_set_eq; f_equal; unfold count_or_zero.
  - apply has_false_get in Hke. by rewrite Hke.
  - apply has_false_get in Hka. by rewrite Hka.
Qed.

Lemma X5_witness :
  ∃ s',
    level_put 1 0 (JString "c") (JNumber 3)
      (mkState [mkCacheLevel 1 "LFU" [(JString "a", JNumber 1)]
                  [(JString "a", 4)] false None] [0%nat] [])
      = Returns JUndefined s' ∧
    JsMap.get (JString "c") (counters 0 s') = Some 0.
Proof.
  set (L := mkCacheLevel 1 "LFU" [(JString "a", JNumber 1)]
              [(JString "a", 4)] false None).
  destruct (X5_lfu_new_key_starts_at_zero 1 0 (JString "c") (JNumber 3)
              (mkState [L] [0%nat] []) L)
    as (s' & Hput & _ & Hc); [by apply acyclicb_spec|by apply quiescentb_spec|
                              reflexivity|simpl; lia|reflexivity| |reflexivity|].
  { intros _. split; [done|]. by repeat constructor. }
  by exists s'.
Defined.

(** X6.  An LFU level of positive capacity whose maps are in step and
    whose keys are all truthy holds no more entries than its capacity
    after a [put]. *)
Theorem X6_lfu_capacity_with_truthy_keys fuel a k v s L :
  acyclic (heap s) → unlocked_from a (heap s) → heap s !! a = Some L →
  (length (heap s) - a ≤ fuel)%nat →
  evictionPolicy L = "LFU"%string → lfu_in_sync L → 0 < size L →
  Forall (fun key => truthy key = true) (cache L).*1 →
  JsMap.size (cache L) ≤ size L →
  ∃ s', level_put fuel a k v s = Returns JUndefined s' ∧
        JsMap.size (entries a s') ≤ size L.
Proof.
  intros Hac Hun Ha Hfuel Hp Hsync Hpos Htr Hle.
  destruct (level_put_spec fuel a k v s L) as (s' & l & Hput & Ha' & _); [done..|].
  exists s'. split; [done|]. rewrite (entries_lookup _ _ _ Ha').
  destruct (Hsync Hp) as [Hkeys _].
  destruct (at_capacity L) eqn:Hcap.
  - unfold at_capacity, JsMap.size in Hcap, Hle.
    rewrite Z.geb_leb in Hcap. apply Z.leb_le in Hcap.
    assert (Hne : accessCount L ≠ []).
    { intros Hnil. rewrite Hnil in Hkeys. apply fmap_nil_inv in Hkeys.
      rewrite Hkeys in Hcap. simpl in Hcap. lia. }
    destruct (lfu_scan_nonempty _ JNull Hne) as [fq Hfq].
    pose proof (lfu_scan_spec (accessCount L) JNull None) as Hspec.
    rewrite Hfq in Hspec. destruct Hspec as (_ & _ & [Hin|[? _]]); [|done].
    assert (Hvk : (lfu_scan (accessCount L) JNull None).1 ∈ (cache L).*1).
    { rewrite Hkeys. apply list_elem_of_fmap. by eexists (_, _). }
    apply put_local_capacity_LFU; [done| |by apply has_keys|done].
    rewrite Forall_forall in Htr. by apply Htr.
  - rewrite cache_put_local, Hcap. unfold at_capacity, JsMap.size in *.
    rewrite Z.geb_leb in Hcap. apply Z.leb_gt in Hcap.
    pose proof (length_set_le k v (cache L)). lia.
Qed.

Lemma X6_witness :
  ∃ s',
    level_put 1 0 (JString "c") (JNumber 3)
      (mkState [mkCacheLevel 1 "LFU" [(JString "a", JNumber 1)]
                  [(JString "a", 4)] false None] [0%nat] [])
      = Returns JUndefined s' ∧
    JsMap.size (entries 0 s') ≤ 1.
Proof.
  set (L := mkCacheLevel 1 "LFU" [(JString "a", JNumber 1)]
              [(JString "a", 4)] false None).
  destruct (X6_lfu_capacity_with_truthy_keys 1 0 (JString "c") (JNumber 3)
              (mkState [L] [0%nat] []) L)
    as (s' & Hput & Hsz); [by apply acyclicb_spec|by apply quiescentb_spec|
                           reflexivity|simpl; lia|reflexivity| |done| |done|].
  { intros _. split; [done|]. by repeat constructor. }
  { by repeat constructor. }
  by exists s'.
Defined.

(** ** Invariants of the reachable states *)

(** X7.  In every state that the command loop reaches from the empty
    cache, an LRU level of positive capacity holds no more entries than
    its capacity. *)
Theorem X7_lru_capacity_reachable fuel cmds s :
  (length cmds ≤ fuel)%nat → session fuel cmds initial = Some s →
  ∀ a L, heap s !! a = Some L →
    evictionPolicy L = "LRU"%string → 0 < size L →
    JsMap.size (cache L) ≤ size L.
Proof.
  intros Hfuel Hs a L Ha.
  assert (HF : Forall lru_within_capacity (heap s)).
  { eapply (session_invariant _ fuel cmds initial);
      [apply lru_within_capacity_invariant|apply wf_initial|constructor|done|done]. }
  by apply (Forall_lookup_1 _ _ _ _ HF Ha).
Qed.

Lemma X7_witness :
  session 4 two_level_script initial = Some demoted_state ∧
  ∀ a L, heap demoted_state !! a = Some L →
    evictionPolicy L = "LRU"%string → 0 < size L →
    JsMap.size (cache L) ≤ size L.
Proof.
  split; [reflexivity|].
  apply (X7_lru_capacity_reachable 4 two_level_script); [simpl; lia|reflexivity].
Defined.

(** X8.  In every state that the command loop reaches from the empty
    cache, the store and the counters of an LFU level list the same keys
    in the same order, no counter is negative, and no key occurs twice in
    a map. *)
Theorem X8_lfu_maps_in_step_reachable fuel cmds s :
  (length cmds ≤ fuel)%nat → session fuel cmds initial = Some s →
  ∀ a L, heap s !! a = Some L →
    NoDup (cache L).*1 ∧
    (evictionPolicy L = "LFU"%string →
     (cache L).*1 = (accessCount L).*1 ∧
     Forall (fun e => 0 ≤ e.2) (accessCount L)).
Proof.
  intros Hfuel Hs a L Ha.
  assert (HF : Forall lfu_in_sync (heap s)).
  { eapply (session_invariant _ fuel cmds initial);
      [apply lfu_in_sync_invariant|apply wf_initial|constructor|done|done]. }
  assert (HU : Forall keys_unique (heap s)).
  { eapply (session_invariant _ fuel cmds initial);
      [apply keys_unique_invariant|apply wf_initial|constructor|done|done]. }
  split.
  - by destruct (Forall_lookup_1 _ _ _ _ HU Ha).
  - by apply (Forall_lookup_1 _ _ _ _ HF Ha).
Qed.

Lemma X8_witness :
  ∃ s,
    session 2 [CAdd 2 "LFU"; CPut (JString "a") (JNumber 1)] initial = Some s ∧
    ∀ a L, heap s !! a = Some L →
      NoDup (cache L).*1 ∧
      (evictionPolicy L = "LFU"%string →
       (cache L).*1 = (accessCount L).*1 ∧
       Forall (fun e => 0 ≤ e.2) (accessCount L)).
Proof.
  eexists. split; [reflexivity|].
  apply (X8_lfu_maps_in_step_reachable 2
           [CAdd 2 "LFU"; CPut (JString "a") (JNumber 1)]); [simpl; lia|reflexivity].
Defined.

(** X9.  [get] and [put] never change the topology: when a call on a
    well-formed chain returns, the array of levels is the same, and every
    level has the capacity, the policy, the lower level and the free lock
    it had. *)
Theorem X9_get_put_keep_topology fuel key s :
  wf s → (length (heap s) ≤ fuel)%nat →
  (∀ value r s', mlc_put fuel key value s = Returns r s' →
     cacheLevels s' = cacheLevels s ∧ frame 0 (heap s) (heap s')) ∧
  (∀ r s', mlc_get fuel key s = Returns r s' →
     cacheLevels s' = cacheLevels s ∧ frame 0 (heap s) (heap s')).
Proof.
  intros Hwf Hfuel. split.
  - intros value r s' Hput.
    pose proof (mlc_put_evolves fuel key value s Hwf Hfuel) as H.
    rewrite Hput in H. destruct H as [He Hcl].
    split; [done|by apply heap_evolves_frame].
  - intros r s' Hget.
    pose proof (mlc_get_evolves fuel key s Hwf Hfuel) as H.
    rewrite Hget in H. destruct H as [He Hcl].
    split; [done|by apply heap_evolves_frame].
Qed.

Lemma X9_witness :
  wf demoted_state ∧
  ∃ s', mlc_put 3 (JString "c") (JNumber 3) demoted_state = Returns JUndefined s' ∧
        cacheLevels s' = cacheLevels demoted_state ∧
        frame 0 (heap demoted_state) (heap s').
Proof.
  split; [apply demoted_state_wf|].
  eexists. split; [reflexivity|].
  destruct (X9_get_put_keep_topology 3 (JString "c") demoted_state
              demoted_state_wf ltac:(simpl; lia)) as [Hput _].
  by apply (Hput (JNumber 3) JUndefined).
Defined.

(** ** Round trips *)

(** X10.  What [put] stores, [get] returns: after a chain [put] of a value
    other than [null] on a well-formed chain with at least one level, a
    chain [get] of the same key returns that value, taking only the lock
    of the top level. *)
Theorem X10_put_then_get fuel k v s a rest :
  wf s → cacheLevels s = a :: rest → (length (heap s) ≤ fuel)%nat →
  v ≠ JNull →
  ∃ s1 s2,
    mlc_put fuel k v s = Returns JUndefined s1 ∧
    mlc_get fuel k s1 = Returns v s2 ∧
    trace s2 = trace s1 ++ [Acquire a; Release a] ∧
    wf s2.
Proof.
  intros Hwf Hcl Hfuel Hv. pose proof Hwf as (Hac & Hq & Hval & _).
  rewrite Hcl in Hval. apply Forall_cons in Hval as [Hlt _].
  destruct (lookup_lt_is_Some_2 _ _ Hlt) as [L Ha].
  destruct (level_put_spec fuel a k v s L)
    as (s1 & l & Hput & Ha1 & Hfr & Hcl1 & _);
    [done|by apply wf_unlocked|done|lia|].
  assert (Hwf1 : wf s1).
  { eapply wf_frame; [done| |done]. eapply frame_weaken; [|done]. lia. }
  assert (Hget : JsMap.get k (cache (put_local k v L)) = Some v).
  { rewrite cache_put_local. apply get_set_eq. }
  destruct fuel as [|fuel]; [lia|].
  eexists s1, _. split_and!.
  - unfold mlc_put. by rewrite Hcl.
  - rewrite (mlc_get_top_hit fuel k s1 a rest (put_local k v L));
      unfold get_or_undefined; rewrite ?Hget; try done.
    + congruence.
    + destruct Hwf1 as (_ & Hq1 & _). by eapply (Hq1 a); [lia|].
    + by eapply get_has.
  - done.
  - cbn [heap cacheLevels]. eapply wf_evolves; [exact Hwf1| |done].
    cbn [heap]. eapply heap_evolves_insert; [done|].
    eapply rtc_l; [|apply rtc_refl]. apply step_touch. by eapply get_has.
Qed.

Lemma X10_witness :
  wf demoted_state ∧
  ∃ s1 s2,
    mlc_put 3 (JString "c") (JNumber 3) demoted_state = Returns JUndefined s1 ∧
    mlc_get 3 (JString "c") s1 = Returns (JNumber 3) s2.
Proof.
  split; [apply demoted_state_wf|].
  destruct (X10_put_then_get 3 (JString "c") (JNumber 3) demoted_state 0 [1%nat]
              demoted_state_wf eq_refl ltac:(simpl; lia) ltac:(done))
    as (s1 & s2 & Hput & Hget & _).
  by exists s1, s2.
Defined.



(** ** A hit below the level that is asked *)

Lemma lookup_down_ge n h a k c v :
  acyclic h → lookup_down n h a k = Some (c, v) → (a ≤ c)%nat.
Proof.
  intros Hac. revert a. induction n as [|n IH]; intros a; simpl; [done|].
  destruct (h !! a) as [L|] eqn:Ha; [|done].
  destruct (JsMap.has k (cache L)); [by intros [= <- _]|].
  destruct (lowerCache L) as [b|] eqn:Hb; [|done].
  intros ?%IH. destruct (Hac a L b Ha Hb). lia.
Qed.

Lemma lookup_down_insert_below n h a c k X :
  acyclic h → (c < a)%nat →
  lookup_down n (<[c := X]> h) a k = lookup_down n h a k.
Proof.
  intros Hac. revert a. induction n as [|n IH]; intros a Hca; simpl; [done|].
  rewrite list_lookup_insert_ne by lia.
  destruct (h !! a) as [L|] eqn:Ha; [|done].
  destruct (JsMap.has k (cache L)); [done|].
  destruct (lowerCache L) as [b|] eqn:Hb; [|done].
  destruct (Hac a L b Ha Hb). apply IH. lia.
Qed.

Lemma level_get_blocks_below fuel a k s c v :
  acyclic (heap s) → unlocked_from a (heap s) →
  (length (heap s) - a ≤ fuel)%nat →
  lookup_down fuel (heap s) a k = Some (c, v) → c ≠ a → truthy v = true →
  ∃ s', level_get fuel a k s = Blocks s' ∧
        mutex <$> heap s' !! a = Some true ∧
        cacheLevels s' = cacheLevels s ∧
        ∀ d, (d < a)%nat → heap s' !! d = heap s !! d.
Proof.
  revert a s. induction fuel as [|fuel IH]; intros a [h cl t];
    cbn [heap]; intros Hac Hun Hfuel Hdown Hca Hv; [done|].
  simpl in Hdown. destruct (h !! a) as [L|] eqn:Ha; [|done].
  assert (Hlt : (a < length h)%nat) by (by eapply lookup_lt_Some).
  assert (Hm : mutex L = false) by (by eapply Hun).
  destruct (JsMap.has k (cache L)) eqn:Hk; [by simplify_eq|].
  destruct (lowerCache L) as [b|] eqn:Hb; [|done].
  destruct (Hac a L b Ha Hb) as [Hab Hbl].
  simpl. unfold bind at 1, acquire, with_level. simpl. rewrite Ha, Hm.
  unfold try_finally, with_level, update_level, set_heap, log. simpl.
  rewrite (alter_insert _ _ _ _ Ha).
  rewrite list_lookup_insert_eq by done. simpl. rewrite Hk, Hb. simpl.
  unfold bind at 1.
  set (s1 := mkState (<[a:=set_mutex true L]> h) cl (t ++ [Acquire a])).
  destruct (decide (c = b)) as [->|Hcb].
  - destruct fuel as [|fuel]; [done|]. simpl in Hdown.
    destruct (h !! b) as [Lb|] eqn:HLb; [|done].
    destruct (JsMap.has k (cache Lb)) eqn:Hkb.
    + injection Hdown as <-.
      rewrite (level_get_hit fuel b k s1 Lb);
        [|by simpl; rewrite list_lookup_insert_ne by lia|by eapply (Hun b); [lia|]|done].
      rewrite Hv. simpl.
      unfold bind at 1. unfold bind at 1, acquire, with_level. simpl.
      rewrite list_lookup_insert_ne, list_lookup_insert_eq by (done || lia).
      simpl. eexists. split; [done|]. simpl.
      rewrite list_lookup_insert_ne, list_lookup_insert_eq by (done || lia).
      split_and!; [done..|]. intros d Hd. by rewrite !list_lookup_insert_ne by lia.
    + destruct (lowerCache Lb) as [b'|] eqn:Hb'; [|done].
      apply lookup_down_ge in Hdown; [|done].
      destruct (Hac b Lb b' HLb Hb'). lia.
  - destruct (IH b s1) as (s' & Hget & _ & Hcl' & Hbelow); simpl;
      rewrite ?length_insert; try done; try lia.
    + by eapply acyclic_insert.
    + apply unlocked_from_insert; [|done].
      intros d Ld ? ?. eapply (Hun d); [lia|done].
    + by rewrite lookup_down_insert_below.
    + rewrite Hget. exists s'. split; [done|]. simpl in Hbelow. split_and!.
      * rewrite (Hbelow a) by done. by rewrite list_lookup_insert_eq.
      * done.
      * intros d Hd. rewrite (Hbelow d) by lia. by rewrite list_lookup_insert_ne by lia.
Qed.

(** X12.  A chain [get] never completes when the top level does not hold
    the key and the first level below that holds it stores a truthy
    value: the level above the hit asks for its own lock while holding
    it, and the lock of the top level stays taken. *)
Theorem X12_get_blocks_on_lower_hit fuel k s a rest c v :
  wf s → cacheLevels s = a :: rest → (length (heap s) ≤ fuel)%nat →
  lookup_down fuel (heap s) a k = Some (c, v) → c ≠ a → truthy v = true →
  ∃ s', mlc_get fuel k s = Blocks s' ∧ mutex <$> heap s' !! a = Some true.
Proof.
  intros Hwf Hcl Hfuel Hdown Hca Hv.
  destruct (level_get_blocks_below fuel a k s c v)
    as (s' & Hget & Hm & _); [apply Hwf|by apply wf_unlocked|lia|done..|].
  exists s'. split; [|done].
  unfold mlc_get. rewrite Hcl. simpl. unfold bind. by rewrite Hget.
Qed.

Lemma X12_witness :
  wf demoted_state ∧
  lookup_down 3 (heap demoted_state) 0 (JString "a") = Some (1%nat, JNumber 1) ∧
  ∃ s', mlc_get 3 (JString "a") demoted_state = Blocks s' ∧
        mutex <$> heap s' !! 0%nat = Some true.
Proof.
  split_and!; [apply demoted_state_wf|reflexivity|].
  apply (X12_get_blocks_on_lower_hit 3 (JString "a") demoted_state 0 [1%nat]
           1%nat (JNumber 1));
    [apply demoted_state_wf|reflexivity|simpl; lia|reflexivity|done|reflexivity].
Defined.

Lemma level_put_held fuel a k v s L :
  heap s !! a = Some L → mutex L = true → level_put (S fuel) a k v s = Blocks s.
Proof.
  intros Ha Hm. simpl. unfold bind at 1, acquire, with_level. by rewrite Ha, Hm.
Qed.

Lemma level_get_held fuel a k s L :
  heap s !! a = Some L → mutex L = true → level_get (S fuel) a k s = Blocks s.
Proof.
  intros Ha Hm. simpl. unfold bind at 1, acquire, with_level. by rewrite Ha, Hm.
Qed.

(** X13.  One blocked [get] makes the cache unusable: in the state in
    which such a [get] is stuck, every later chain [get] and [put], for
    any key, waits for the lock of the top level and never completes. *)
Theorem X13_blocked_get_blocks_every_later_call fuel k s a rest c v :
  wf s → cacheLevels s = a :: rest → (length (heap s) ≤ fuel)%nat →
  lookup_down fuel (heap s) a k = Some (c, v) → c ≠ a → truthy v = true →
  ∃ s', mlc_get fuel k s = Blocks s' ∧
        ∀ key value,
          mlc_get fuel key s' = Blocks s' ∧ mlc_put fuel key value s' = Blocks s'.
Proof.
  intros Hwf Hcl Hfuel Hdown Hca Hv.
  destruct (level_get_blocks_below fuel a k s c v)
    as (s' & Hget & Hm & Hcl' & _); [apply Hwf|by apply wf_unlocked|lia|done..|].
  exists s'. split.
  { unfold mlc_get. rewrite Hcl. simpl. unfold bind. by rewrite Hget. }
  destruct (heap s' !! a) as [L'|] eqn:Ha'; [|done]. injection Hm as Hm.
  destruct fuel as [|fuel]; [done|].
  intros key value. unfold mlc_get, mlc_put. rewrite Hcl', Hcl. split.
  - cbn [get_loop]. unfold bind. by rewrite (level_get_held fuel a key s' L').
  - by apply (level_put_held fuel a key value s' L').
Qed.

Lemma X13_witness :
  wf demoted_state ∧
  ∃ s', mlc_get 3 (JString "a") demoted_state = Blocks s' ∧
        mlc_put 3 (JString "z") (JNumber 0) s' = Blocks s'.
Proof.
  split; [apply demoted_state_wf|].
  destruct (X13_blocked_get_blocks_every_later_call 3 (JString "a") demoted_state
              0 [1%nat] 1%nat (JNumber 1))
    as (s' & Hget & Hall);
    [apply demoted_state_wf|reflexivity|simpl; lia|reflexivity|done|reflexivity|].
  exists s'. split; [done|]. apply (Hall (JString "z") (JNumber 0)).
Defined.

(** ** Adding and removing levels *)

Lemma wf_distinct s i j a :
  wf s → cacheLevels s !! i = Some a → cacheLevels s !! j = Some a → i = j.
Proof.
  intros (_ & _ & _ & Hinc) Hi Hj.
  destruct (Nat.lt_trichotomy i j) as [Hlt|[->|Hlt]]; [|done|].
  - pose proof (Hinc i j a a Hlt Hi Hj). lia.
  - pose proof (Hinc j i a a Hlt Hj Hi). lia.
Qed.

(** X14.  [addCacheLevel] keeps the chain linked: if every level of a
    well-formed chain points to its successor in the array and the last
    one to nothing, the same holds after a level has been appended. *)
Theorem X14_addCacheLevel_keeps_links sz p s :
  wf s → linked s → valid_policy p →
  ∃ s', addCacheLevel sz p s = Returns JUndefined s' ∧ linked s' ∧
        cacheLevels s' = cacheLevels s ++ [length (heap s)].
Proof.
  intros Hwf Hlk Hp. pose proof Hwf as (Hac & Hq & Hv & Hinc).
  eexists. split; [by apply addCacheLevel_returns|]. split; [|done].
  set (n := length (heap s)). set (cl := cacheLevels s).
  intros j a. cbn [cacheLevels]. unfold lower_of. cbn [heap]. intros Hj.
  assert (Hnew : (heap s ++ [new_level sz p]) !! n = Some (new_level sz p)).
  { rewrite lookup_app_r by (unfold n; lia). by rewrite Nat.sub_diag. }
  destruct (decide (j < length cl)%nat) as [Hjl|Hjl].
  - rewrite lookup_app_l in Hj by done.
    assert (Han : (a < n)%nat).
    { rewrite Forall_lookup in Hv. by apply (Hv j). }
    assert (Hlast : last cl = cl !! (length cl - 1)%nat).
    { rewrite last_lookup. f_equal. lia. }
    destruct (decide (j = length cl - 1)%nat) as [->|Hne].
    + rewrite Hlast, Hj. rewrite list_lookup_alter_eq, lookup_app_l by done.
      destruct (heap s !! a) as [L|] eqn:Ha; simpl.
      * rewrite lookup_app_r by lia.
        by replace (S (length cl - 1) - length cl)%nat with 0%nat by lia.
      * apply lookup_ge_None in Ha. unfold n in Han. lia.
    + assert (Hother : ∀ h' : list CacheLevel, match last cl with
                             | Some q => alter (setLowerCache (Some n)) q h'
                             | None => h'
                             end !! a = h' !! a).
      { intros h'. rewrite Hlast.
        destruct (cl !! (length cl - 1)%nat) as [q|] eqn:Hql; [|done].
        apply list_lookup_alter_ne. intros ->.
        apply Hne. by eapply (wf_distinct s). }
      rewrite Hother, lookup_app_l by done.
      specialize (Hlk j a Hj). unfold lower_of in Hlk. rewrite Hlk.
      by rewrite lookup_app_l by lia.
  - rewrite lookup_app_r in Hj by lia.
    destruct (j - length cl)%nat eqn:Hd; simpl in Hj; [|done]. injection Hj as <-.
    rewrite (lookup_ge_None_2 (cl ++ [n])) by (rewrite length_app; simpl; lia).
    destruct (last cl) as [q|] eqn:Hlast.
    + rewrite list_lookup_alter_ne, Hnew; [done|]. intros ->.
      rewrite last_lookup in Hlast. rewrite Forall_lookup in Hv.
      specialize (Hv _ _ Hlast). simpl in Hv. unfold n in Hv. lia.
    + by rewrite Hnew.
Qed.

Lemma X14_witness :
  wf three_level_state ∧ linked three_level_state ∧
  ∃ s', addCacheLevel 5 "LFU" three_level_state = Returns JUndefined s' ∧
        linked s' ∧ cacheLevels s' = [0; 1; 2; 3]%nat.
Proof.
  split_and!; [apply three_level_state_wf|apply three_level_state_linked|].
  destruct (X14_addCacheLevel_keeps_links 5 "LFU" three_level_state
              three_level_state_wf three_level_state_linked ltac:(by right))
    as (s' & Hadd & Hlk & Hcl).
  by exists s'.
Defined.

Lemma relink_lookup_set levels i n h j a :
  increasing levels → (i ≤ j < i + n)%nat → levels !! j = Some a →
  (a < length h)%nat →
  relink levels i n h !! a ≫= lowerCache =
  if decide (j < length levels - 1)%nat then levels !! S j else None.
Proof.
  intros Hinc. revert i h. induction n as [|n IH]; intros i h Hij Hj Ha; [lia|].
  simpl. destruct (decide (i = j)) as [->|Hne].
  - rewrite Hj. rewrite relink_lookup_other.
    + rewrite list_lookup_alter_eq.
      destruct (lookup_lt_is_Some_2 h a Ha) as [L ->]. done.
    + intros j' Hj' Hj'a. pose proof (Hinc j j' a a ltac:(lia) Hj Hj'a). lia.
  - apply IH; [lia|done|].
    destruct (levels !! i); [by rewrite length_alter|done].
Qed.

(** X15.  After [removeCacheLevel(i)] on a well-formed, linked chain every
    level of the new array points to its successor, and the last one to
    nothing, except the level just before the removed one.  In particular
    the chain is linked again after [removeCacheLevel(0)]. *)
Theorem X15_removeCacheLevel_links i s :
  wf s → linked s → valid_index i s →
  ∃ s', removeCacheLevel i s = Returns JUndefined s' ∧
        cacheLevels s' = delete (Z.to_nat i) (cacheLevels s) ∧
        (∀ j a, Z.of_nat j ≠ i - 1 → cacheLevels s' !! j = Some a →
                lower_of a s' = cacheLevels s' !! S j) ∧
        (i = 0 → linked s').
Proof.
  intros Hwf Hlk Hi. pose proof Hwf as (Hac & Hq & Hv & Hinc).
  destruct (removeCacheLevel_wf i s Hwf Hi) as (s' & Hrem & Hwf' & _).
  exists s'. split; [done|].
  rewrite removeCacheLevel_returns in Hrem by done. injection Hrem as <-.
  set (n := Z.to_nat i). cbn [cacheLevels]. split; [done|].
  assert (Hmost : ∀ j a, Z.of_nat j ≠ i - 1 →
            delete n (cacheLevels s) !! j = Some a →
            lower_of a
              (mkState (relink (delete n (cacheLevels s)) n
                          (length (delete n (cacheLevels s)) - n) (heap s))
                       (delete n (cacheLevels s)) (trace s))
            = delete n (cacheLevels s) !! S j).
  { intros j a Hne Hj. unfold lower_of. cbn [heap].
    pose proof Hwf' as (_ & _ & Hv' & Hinc'). cbn [heap cacheLevels] in Hv', Hinc'.
    destruct (decide (n ≤ j)%nat) as [Hge|Hlt].
    - pose proof (lookup_lt_Some _ _ _ Hj) as Hjl.
      rewrite (relink_lookup_set _ n _ _ j a); [|done|lia|done|].
      + case_decide; [done|]. symmetry. apply lookup_ge_None. lia.
      + rewrite list_lookup_delete_ge in Hj by done.
        rewrite Forall_lookup in Hv. by apply (Hv _ _ Hj).
    - assert (S j < n)%nat by (unfold n in *; lia).
      rewrite relink_lookup_other.
      + rewrite list_lookup_delete_lt in Hj by lia.
        rewrite list_lookup_delete_lt by lia. by apply Hlk.
      + intros j' Hj' Hj'a.
        pose proof (Hinc' j j' a a ltac:(lia) Hj Hj'a). lia. }
  split; [done|]. intros -> j a Hj. apply Hmost; [lia|done].
Qed.

Lemma X15_witness :
  wf three_level_state ∧ linked three_level_state ∧
  ∃ s', removeCacheLevel 0 three_level_state = Returns JUndefined s' ∧
        cacheLevels s' = [1; 2]%nat ∧ linked s'.
Proof.
  split_and!; [apply three_level_state_wf|apply three_level_state_linked|].
  destruct (X15_removeCacheLevel_links 0 three_level_state
              three_level_state_wf three_level_state_linked)
    as (s' & Hrem & Hcl & _ & Hlk).
  { unfold valid_index. simpl. lia. }
  exists s'. split_and!; [done|done|by apply Hlk].
Defined.

Lemma relink_stores levels i n h c :
  relink levels i n h !! c =
  (fun L => setLowerCache (relink levels i n h !! c ≫= lowerCache) L) <$> h !! c.
Proof.
  revert i h. induction n as [|n IH]; intros i h; simpl.
  - destruct (h !! c) as [L|]; simpl; [|done]. by destruct L.
  - rewrite IH at 1. destruct (levels !! i) as [a|]; [|done].
    destruct (decide (a = c)) as [->|].
    + rewrite list_lookup_alter_eq. destruct (h !! c); simpl; [|done]. done.
    + by rewrite list_lookup_alter_ne.
Qed.

(** X16.  [addCacheLevel] and [removeCacheLevel] move no data: every level
    that exists before the call still exists after it with the same
    entries, the same counters, the same capacity and the same policy;
    the entries of a removed level are not passed on to any other
    level. *)
Theorem X16_topology_changes_move_no_data s c L :
  heap s !! c = Some L →
  (∀ sz p r s', addCacheLevel sz p s = Returns r s' →
     ∃ L', heap s' !! c = Some L' ∧ cache L' = cache L ∧
           accessCount L' = accessCount L ∧ size L' = size L ∧
           evictionPolicy L' = evictionPolicy L) ∧
  (∀ i r s', removeCacheLevel i s = Returns r s' →
     ∃ L', heap s' !! c = Some L' ∧ cache L' = cache L ∧
           accessCount L' = accessCount L ∧ size L' = size L ∧
           evictionPolicy L' = evictionPolicy L).
Proof.
  intros Hc. split.
  - intros sz p r s' Hadd. destruct (decide (valid_policy p)) as [Hp|Hp];
      [|by rewrite addCacheLevel_throws in Hadd].
    rewrite addCacheLevel_returns in Hadd by done. injection Hadd as <- <-.
    cbn [heap].
    assert (Hold : (heap s ++ [new_level sz p]) !! c = Some L).
    { rewrite lookup_app_l; [done|by eapply lookup_lt_Some]. }
    destruct (last (cacheLevels s)) as [q|]; [|by exists L].
    destruct (decide (q = c)) as [->|].
    + rewrite list_lookup_alter_eq, Hold. simpl. by eexists.
    + rewrite list_lookup_alter_ne by done. by exists L.
  - intros i r s' Hrem. destruct (decide (valid_index i s)) as [Hi|Hi];
      [|by rewrite removeCacheLevel_throws in Hrem].
    rewrite removeCacheLevel_returns in Hrem by done. injection Hrem as <- <-.
    cbn [heap]. rewrite relink_stores, Hc. simpl. by eexists.
Qed.

Lemma X16_witness :
  ∃ s' L',
    removeCacheLevel 1 demoted_state = Returns JUndefined s' ∧
    heap s' !! 1%nat = Some L' ∧ cache L' = [(JString "a", JNumber 1)].
Proof.
  destruct (X16_topology_changes_move_no_data demoted_state 1
              (mkCacheLevel 1 "LRU" [(JString "a", JNumber 1)] [] false None)
              eq_refl) as [_ Hrem].
  destruct (Hrem 1 JUndefined _ eq_refl) as (L' & HL' & Hc & _).
  by eexists _, L'.
Defined.

(** ** A level that can hold nothing *)

Lemma level_put_demotes fuel a b k v ek ev s L :
  acyclic (heap s) → unlocked_from a (heap s) → heap s !! a = Some L →
  (length (heap s) - a ≤ fuel)%nat →
  demoted L = Some (ek, ev) → lowerCache L = Some b →
  ∃ s', level_put fuel a k v s = Returns JUndefined s' ∧
        heap s' !! a = Some (put_local k v L) ∧
        JsMap.get ek (entries b s') = Some ev.
Proof.
  intros Hac Hun Ha Hfuel Hd Hb.
  assert (Hlt : (a < length (heap s))%nat) by (by eapply lookup_lt_Some).
  destruct (Hac a L b Ha Hb) as [Hab Hbl].
  destruct (lookup_lt_is_Some_2 _ _ Hbl) as [Lb HLb].
  destruct fuel as [|[|fuel]]; [lia..|].
  eexists. split; [by apply level_put_cascade|].
  unfold entries. cbn [heap].
  split; [by apply cascade_lookup_top|].
  pose proof (cascade_lookup_top fuel b ek ev _ _ HLb) as Htop.
  remember (S fuel) as n. simpl. rewrite Ha, Hd, Hb.
  destruct (cascade n b ek ev (heap s)) as [h' l]. simpl in *.
  rewrite list_lookup_insert_ne by lia. rewrite Htop. simpl.
  rewrite cache_put_local. apply get_set_eq.
Qed.

(** X17.  An LRU level whose capacity is zero or negative evicts on every
    [put], also when it is empty: it then hands an entry whose key and
    value are both [undefined] to its lower level, which stores it, and
    keeps the new entry for itself. *)
Theorem X17_empty_lru_level_demotes_undefined fuel a b k v s L :
  acyclic (heap s) → unlocked_from a (heap s) → heap s !! a = Some L →
  (length (heap s) - a ≤ fuel)%nat →
  evictionPolicy L = "LRU"%string → size L ≤ 0 → cache L = [] →
  lowerCache L = Some b →
  ∃ s', level_put fuel a k v s = Returns JUndefined s' ∧
        entries a s' = [(k, v)] ∧
        JsMap.get JUndefined (entries b s') = Some JUndefined.
Proof.
  intros Hac Hun Ha Hfuel Hp Hsz Hc Hb.
  assert (Hcap : at_capacity L = true).
  { unfold at_capacity, JsMap.size. rewrite Hc. simpl.
    rewrite Z.geb_leb. by apply Z.leb_le. }
  assert (Hev : evict L = (Some (JUndefined, JUndefined), set_cache [] L)).
  { unfold evict. rewrite Hp, Hc. done. }
  destruct (level_put_demotes fuel a b k v JUndefined JUndefined s L)
    as (s' & Hput & Ha' & Hlow); [done..| |done|].
  { unfold demoted. by rewrite Hcap, Hev. }
  exists s'. split_and!; [done| |done].
  rewrite (entries_lookup _ _ _ Ha'), cache_put_local, Hcap, Hev. done.
Qed.

Lemma X17_witness :
  ∃ s s',
    session 2 [CAdd 0 "LRU"; CAdd 1 "LRU"] initial = Some s ∧
    mlc_put 2 (JString "a") (JNumber 1) s = Returns JUndefined s' ∧
    entries 0 s' = [(JString "a", JNumber 1)] ∧
    JsMap.get JUndefined (entries 1 s') = Some JUndefined.
Proof.
  eexists _. simpl.
  destruct (X17_empty_lru_level_demotes_undefined 2 0 1 (JString "a") (JNumber 1)
              (mkState [mkCacheLevel 0 "LRU" [] [] false (Some 1%nat);
                        mkCacheLevel 1 "LRU" [] [] false None] [0; 1]%nat [])
              (mkCacheLevel 0 "LRU" [] [] false (Some 1%nat)))
    as (s' & Hput & Ha & Hb);
    [by apply acyclicb_spec|by apply quiescentb_spec|reflexivity|simpl; lia|
     reflexivity|done|reflexivity|reflexivity|].
  exists s'. split; [reflexivity|]. by split.
Defined.

(** ** Display *)









(** ** The command line *)

Lemma split_space_token t : no_space t = true → split_space t = [t].
Proof.
  induction t as [|c t IH]; simpl; [done|].
  intros [Hc Ht]%andb_true_iff. apply negb_true_iff in Hc. rewrite Hc.
  by rewrite IH.
Qed.

Lemma split_space_cons t rest :
  no_space t = true →
  split_space (t +:+ " " +:+ rest) = t :: split_space rest.
Proof.
  induction t as [|c t IH]; simpl; [done|].
  intros [Hc Ht]%andb_true_iff. apply negb_true_iff in Hc. rewrite Hc.
  by rewrite IH.
Qed.

Lemma level_display_no_throw a s e s' : level_display a s ≠ Throws e s'.
Proof.
  unfold level_display, bind, acquire, with_level, try_finally, ret.
  destruct (heap s !! a) as [L|]; [|done]. destruct (mutex L); [done|].
  simpl. by destruct (alter _ _ _ !! a).
Qed.

Lemma displayCache_from_no_throw i levels s e s' :
  (displayCache_from i levels s).2 ≠ Throws e s'.
Proof.
  revert i s. induction levels as [|a rest IH]; intros i s; simpl; [done|].
  destruct (level_display a s) as [d s1|e1 s1|s1|] eqn:Hd; simpl; try done.
  - specialize (IH (S i) s1). by destruct (displayCache_from (S i) rest s1).
  - by apply level_display_no_throw in Hd.
Qed.

Lemma displayCache_no_throw s e s' :
  ∀ lines, displayCache s ≠ (lines, Throws e s').
Proof.
  intros lines H. apply (displayCache_from_no_throw 0 (cacheLevels s) s e s').
  unfold displayCache in H. by rewrite H.
Qed.

Section CommandLine_facts.
Variable parseInt : string → option Z.

(** X20.  Every pair of tokens can be stored from the command line, the
    empty token included: for strings [key] and [value] without a space,
    the line [put key value] calls the chain [put] with exactly these two
    strings; it prints the confirmation when the call returns and the
    caught error when it throws, and prompts again. *)
Theorem X20_put_line_reaches_the_cache fuel key value s :
  no_space key = true → no_space value = true →
  handle parseInt fuel ("put " +:+ key +:+ " " +:+ value) s =
  match mlc_put fuel (JString key) (JString value) s with
  | Returns _ s' =>
      ([Log ("Inserted: " +:+ key +:+ " => " +:+ value)], Returns Prompt s')
  | Throws e s' => ([LogError e], Returns Prompt s')
  | Blocks s' => ([], Blocks s')
  | Stuck => ([], Stuck)
  end.
Proof.
  intros Hk Hv. unfold handle.
  change ("put " +:+ key +:+ " " +:+ value)
    with ("put" +:+ " " +:+ (key +:+ " " +:+ value)).
  rewrite split_space_cons by done.
  rewrite split_space_cons, split_space_token by done.
  simpl. unfold call_then_log. by destruct (mlc_put _ _ _ s).
Qed.

(** X21.  The command line never lets [addCacheLevel] fail: whatever the
    line and the state, the validation error of [addCacheLevel] is never
    printed, because the handler checks the policy before it calls the
    cache.  The only errors a line can print are the one of
    [removeCacheLevel] and a [TypeError], which a [get] or [put] on a
    chain without levels raises; after printing one the handler prompts
    again. *)
Theorem X21_command_line_errors fuel line s out o :
  handle parseInt fuel line s = (out, o) →
  ∀ e, LogError e ∈ out →
    (e = Error "Invalid cache level index" ∨ e = TypeError) ∧
    ∃ s', o = Returns Prompt s'.
Proof.
  unfold handle. intros H e He.
  assert (Hlog : ∀ l : string, LogError e ∈ [Log l] → False).
  { intros l [?|?%elem_of_nil]%elem_of_cons; done. }
  assert (Hcall : ∀ A (m : M A) msg,
            call_then_log m msg s = (out, o) →
            ∃ s', m s = Throws e s' ∧ o = Returns Prompt s').
  { intros A m msg. unfold call_then_log.
    destruct (m s) as [r s'|e' s'|s'|]; intros [= <- <-].
    - by apply Hlog in He.
    - apply list_elem_of_singleton in He as [= ->]. by exists s'.
    - by apply elem_of_nil in He.
    - by apply elem_of_nil in He. }
  assert (Hplain : ∀ (l : string) (s0 : State) (n : next),
            ([Log l], Returns n s0) = (out, o) → False).
  { intros l s0 n [= <- <-]. by apply Hlog in He. }
  destruct (split_space line) as [|cmd args]; [by apply Hplain in H|].
  destruct (String.eqb cmd "addCacheLevel").
  { destruct args as [|a0 [|a1 [|? ?]]]; try (by apply Hplain in H).
    destruct (parseInt a0) as [sz|]; [|by apply Hplain in H].
    destruct (negb _) eqn:Hn; [by apply Hplain in H|].
    destruct (Hcall _ _ _ H) as (s' & Hadd & ->).
    rewrite addCacheLevel_returns in Hadd; [done|].
    apply negb_false_iff, orb_true_iff in Hn as [?%String.eqb_eq|?%String.eqb_eq];
      [by left|by right]. }
  destruct (String.eqb cmd "get").
  { destruct args as [|key [|? ?]]; try (by apply Hplain in H).
    destruct (Hcall _ _ _ H) as (s' & Hget & ->). split; [|by eexists].
    right. by apply get_loop_throws in Hget. }
  destruct (String.eqb cmd "put").
  { destruct args as [|key [|value [|? ?]]]; try (by apply Hplain in H).
    destruct (Hcall _ _ _ H) as (s' & Hput & ->). split; [|by eexists].
    right. by apply mlc_put_throws in Hput as [? _]. }
  destruct (String.eqb cmd "removeCacheLevel").
  { destruct args as [|a0 [|? ?]]; try (by apply Hplain in H).
    destruct (parseInt a0) as [level|]; [|by apply Hplain in H].
    destruct (Hcall _ _ _ H) as (s' & Hrem & ->). split; [|by eexists].
    left. destruct (decide (valid_index level s)) as [Hi|Hi].
    - by rewrite removeCacheLevel_returns in Hrem.
    - rewrite removeCacheLevel_throws in Hrem by done. by simplify_eq. }
  destruct (String.eqb cmd "displayCache").
  { pose proof (displayCache_no_throw s) as Hd.
    destruct (displayCache s) as [lines [r s'|e' s'|s'|]]; injection H as <- <-;
      try (by apply list_elem_of_fmap in He as (? & ? & _)).
    by destruct (Hd e' s' lines). }
  destruct (String.eqb cmd "quit").
  { injection H as <- <-. by apply elem_of_nil in He. }
  by apply Hplain in H.
Qed.
End CommandLine_facts.

Lemma X20_witness :
  no_space EmptyString = true ∧ no_space "x" = true ∧
  ∃ s s',
    session 1 [CAdd 1 "LFU"] initial = Some s ∧
    handle (fun _ => None) 1 "put  x" s =
      ([Log "Inserted:  => x"], Returns Prompt s') ∧
    entries 0 s' = [(JString EmptyString, JString "x")].
Proof.
  split_and!; [reflexivity..|].
  eexists _, _. split; [reflexivity|]. split.
  - rewrite (X20_put_line_reaches_the_cache (fun _ => None) 1 EmptyString "x");
      reflexivity.
  - reflexivity.
Defined.

Lemma X21_witness :
  handle (fun _ => Some 5) 1 "removeCacheLevel 5" initial =
    ([LogError (Error "Invalid cache level index")], Returns Prompt initial) ∧
  (Error "Invalid cache level index" = Error "Invalid cache level index" ∨
   Error "Invalid cache level index" = TypeError) ∧
  ∃ s', Returns Prompt initial = Returns Prompt s'.
Proof.
  split; [reflexivity|].
  apply (X21_command_line_errors (fun _ => Some 5) 1 "removeCacheLevel 5" initial
           [LogError (Error "Invalid cache level index")] (Returns Prompt initial)
           eq_refl (Error "Invalid cache level index")).
  apply list_elem_of_here.
Defined.
